(** * Mindex: the entry parser, sorter and formatter of [mindex.py]

    A shallow embedding of the pure core of [src/mindex.py]:
    [readContent] (line classification, the [sortDict] side table, the
    stable case-insensitive sort, the substitution pass and the report
    of the rejected lines), [formatIndex], and the layout helpers
    [getPaperSize], [getBasicParams], [calcMargins] and [calcColumns].

    Text model.  A Python [str] is modelled by [string]; a character is
    the code point it denotes, restricted to the range 0..255.  On that
    range [str.isspace], [str.lower] and the ordering of [str] are the
    ones defined below.  A text file is the string Python hands out
    after newline translation.  Python floats are the binary64 numbers
    of [PrimFloat]. *)

From Stdlib Require Import Ascii String NArith ZArith Floats.
From stdpp Require Import base option list sorting strings gmap.

Local Open Scope string_scope.

(** ** Characters and the [str] methods used by the program *)

Definition TAB : ascii := "009"%char.
Definition NL : ascii := "010"%char.
Definition HASH : ascii := "#"%char.

Definition tab : string := String TAB "".
Definition nl : string := String NL "".

(** [str.isspace] on one character: U+0009..U+000D, U+001C..U+0020,
    U+0085 and U+00A0. *)
Definition isspace (c : ascii) : bool :=
  let n := N_of_ascii c in
  ((9 <=? n) && (n <=? 13) || (28 <=? n) && (n <=? 32)
   || (n =? 133) || (n =? 160))%N.

Fixpoint lstrip (s : string) : string :=
  match s with
  | "" => ""
  | String c s' => if isspace c then lstrip s' else s
  end.

Fixpoint rstrip (s : string) : string :=
  match s with
  | "" => ""
  | String c s' =>
      match rstrip s' with
      | "" => if isspace c then "" else String c ""
      | r => String c r
      end
  end.

(** [s.strip()] *)
Definition strip (s : string) : string := rstrip (lstrip s).

(** [str.lower] on one character: A..Z and the Latin-1 capitals
    U+00C0..U+00DE (without the multiplication sign U+00D7) move up by
    32; every other character below 256 is left alone. *)
Definition lower_char (c : ascii) : ascii :=
  let n := N_of_ascii c in
  if ((65 <=? n) && (n <=? 90)
      || (192 <=? n) && (n <=? 222) && negb (n =? 215))%N
  then ascii_of_N (n + 32) else c.

(** [s.lower()] *)
Fixpoint lower (s : string) : string :=
  match s with
  | "" => ""
  | String c s' => String (lower_char c) (lower s')
  end.

(** [s.split(sep)] for a one-character separator: never the empty
    list, [n] separators give [n + 1] fields. *)
Fixpoint split (sep : ascii) (s : string) : list string :=
  match s with
  | "" => [""]
  | String c s' =>
      if Ascii.eqb c sep then "" :: split sep s'
      else match split sep s' with
           | f :: fs => String c f :: fs
           | [] => [String c ""]
           end
  end.

(** Iterating over a text file: the lines, each with its newline, the
    last one possibly without. *)
Fixpoint readlines (f : string) : list string :=
  match f with
  | "" => []
  | String c f' =>
      if Ascii.eqb c NL then nl :: readlines f'
      else match readlines f' with
           | l :: ls => String c l :: ls
           | [] => [String c ""]
           end
  end.

(** ** [readContent] *)

(** An element of [data]: the two-element list [[x0, x1]]. *)
Abbreviation entry := (string * string)%type.

(** The three accumulators of the loop. *)
Record state : Type := State {
  data : list entry;
  errors : list (list string);
  sortDict : gmap string string
}.

Definition init : state := State [] [] ∅.

(** [fields[i]] for an index the guards have shown to be in range. *)
Definition field (fields : list string) (i : nat) : string :=
  nth i fields "".

(** One pass through the body of [for entry in f].  [None] is the
    [IndexError] of [entry[0]] on an empty string. *)
Definition loop_body (st : state) (line : string) : option state :=
  match line with
  | "" => None
  | String c _ =>
      if Ascii.eqb c HASH then Some st
      else if String.eqb line nl then Some st
      else
        let entry := split TAB line in
        if (length entry =? 3)%nat && negb (String.eqb (strip (field entry 2)) "")
        then
          Some (State (data st ++ [(strip (field entry 2), strip (field entry 1))])
                      (errors st)
                      (<[strip (field entry 2) := strip (field entry 0)]> (sortDict st)))
        else if (length entry =? 3)%nat && String.eqb (strip (field entry 2)) ""
                || (length entry =? 2)%nat
        then
          Some (State (data st ++ [(strip (field entry 0), strip (field entry 1))])
                      (errors st) (sortDict st))
        else
          Some (State (data st) (errors st ++ [entry]) (sortDict st))
  end.

Fixpoint loop (st : state) (lines : list string) : option state :=
  match lines with
  | [] => Some st
  | line :: rest => st' ← loop_body st line; loop st' rest
  end.

(** The state when the [with] block is left. *)
Definition parse (f : string) : option state := loop init (readlines f).

(** The sort key [lambda x: x[0].lower()]. *)
Definition key (x : entry) : string := lower x.1.

(** [a <= b] on [str]: lexicographic on code points. *)
Definition str_le (a b : string) : bool := String.leb a b.

(** [data.sort(key=...)] is a stable sort; its result is the one of a
    stable insertion sort ([sort_entries_unique] below). *)
Fixpoint insert_entry (x : entry) (l : list entry) : list entry :=
  match l with
  | [] => [x]
  | y :: l' => if str_le (key x) (key y) then x :: y :: l'
               else y :: insert_entry x l'
  end.

Fixpoint sort_entries (l : list entry) : list entry :=
  match l with
  | [] => []
  | x :: l' => insert_entry x (sort_entries l')
  end.

(** The body of [for i in data[:]]: each inner list is visited once. *)
Definition resolve (d : gmap string string) (i : entry) : entry :=
  match d !! i.1 with
  | Some term => (term, i.2)
  | None => i
  end.

Definition substitute (d : gmap string string) (l : list entry) : list entry :=
  map (resolve d) l.

(** The list [data] after the sort and the substitution pass. *)
Definition normalize (st : state) : list entry :=
  substitute (sortDict st) (sort_entries (data st)).

(** What is written to the terminal: a line of text, a list written by
    [print] (the model keeps the list, Python writes it in its own
    notation), and the prompt of [input]. *)
Inductive printed : Type :=
  | Text (s : string)
  | Fields (fields : list string)
  | Prompt (s : string).

(** The report of the rejected lines, up to the prompt of [input]. *)
Definition error_report (errors : list (list string)) : list printed :=
  [Text "";
   Text "The following lines are invalid and were ignored:";
   Text "----- BEGIN MINDEX FILE ERRORS -----"]
  ++ map Fields errors
  ++ [Text "----- END MINDEX FILE ERRORS -----";
      Prompt "(press any key to continue)"].

(** [readContent(fname)] on the text [f] of the file and the lines
    [stdin] still to be read at the terminal.  The result is what was
    printed, and the list returned together with the lines of [stdin]
    not yet read; [None] is an exception: the [IndexError] of the
    loop, or the [EOFError] of [input] when the report is due and
    [stdin] is at its end. *)
Definition readContent (f : string) (stdin : list string)
  : list printed * option (list entry * list string) :=
  match parse f with
  | None => ([], None)
  | Some st =>
      let out := normalize st in
      match errors st with
      | [] => ([], Some (out, stdin))
      | _ :: _ =>
          (error_report (errors st),
           match stdin with
           | [] => None
           | _ :: rest => Some (out, rest)
           end)
      end
  end.

(** ** [formatIndex] *)

Definition item (i : entry) : string := "\item ~" +:+ i.1 +:+ ", " +:+ i.2.

Fixpoint formatIndex_from (index : string) (l : list entry) : string :=
  match l with
  | [] => index
  | i :: l' => formatIndex_from (index +:+ item i) l'
  end.

Definition formatIndex (l : list entry) : string := formatIndex_from "" l.

(** ** Layout parameters *)

Inductive dim : Type := X | Y.

Definition PAPER_DIMS (which : dim) : float :=
  match which with X => 8.5%float | Y => 11.0%float end.

Record params : Type := Params {
  title : string;
  xdim : float;
  ydim : float;
  fname : string
}.

(** What [getPaperSize] prints when it turns an answer down. *)
Inductive report : Type :=
  | NotANumber
  | LargerThanPaper (which : dim)
  | NotPositive
  | MarginTooSmall.

(** [getPaperSize(which)] against the answers typed at its prompt.  An
    answer is what [float(ps)] makes of it, [None] for a [ValueError].
    The result is what was printed, and the value returned together
    with the answers not yet read; [None] when the answers run out
    ([input] raises [EOFError]). *)
Fixpoint getPaperSize (which : dim) (answers : list (option float))
  : list report * option (float * list (option float)) :=
  match answers with
  | [] => ([], None)
  | None :: rest =>
      let r := getPaperSize which rest in (NotANumber :: r.1, r.2)
  | Some ps :: rest =>
      if (PAPER_DIMS which <? ps)%float then
        let r := getPaperSize which rest in (LargerThanPaper which :: r.1, r.2)
      else if (ps <=? 0)%float then
        let r := getPaperSize which rest in (NotPositive :: r.1, r.2)
      else if (PAPER_DIMS which - ps <? 1.0)%float then
        let r := getPaperSize which rest in (MarginTooSmall :: r.1, r.2)
      else ([], Some (ps, rest))
  end.

Definition calcMargins (p : params) : float * float :=
  let x := ((PAPER_DIMS X - xdim p) / 2)%float in
  let y := ((PAPER_DIMS Y - ydim p) / 2)%float in
  (x, y).

(** [int(x)] on a float: the integer towards zero; [None] for an
    infinity ([OverflowError]) and for [nan] ([ValueError]). *)
Definition int_of_float (x : float) : option Z :=
  match Prim2SF x with
  | S754_zero _ => Some 0%Z
  | S754_infinity _ => None
  | S754_nan => None
  | S754_finite s m e =>
      let v := (if 0 <=? e then Z.pos m * 2 ^ e else Z.pos m / 2 ^ (- e))%Z in
      Some (if s then (- v)%Z else v)
  end.

Definition calcColumns (xdim : float) : option Z :=
  let cols := (xdim / 1.5)%float in
  int_of_float cols.

(** [getBasicParams(fname)]: the title is the line typed at the first
    prompt, the two dimensions come from [getPaperSize], the width
    first, on the answers typed after the title. *)
Definition getBasicParams (fname title : string) (answers : list (option float))
  : list report * option (params * list (option float)) :=
  let rx := getPaperSize X answers in
  match rx.2 with
  | None => (rx.1, None)
  | Some (xdim, rest) =>
      let ry := getPaperSize Y rest in
      match ry.2 with
      | None => ((rx.1 ++ ry.1)%list, None)
      | Some (ydim, rest') =>
          ((rx.1 ++ ry.1)%list, Some (Params title xdim ydim fname, rest'))
      end
  end.

(** The bounds of the specification, in its words: the dimension is
    [> 0], [<= maxPaperDimension], and leaves the minimum margin. *)
Definition in_bounds (which : dim) (v : float) : bool :=
  (0 <? v)%float && (v <=? PAPER_DIMS which)%float
  && (1.0 <=? PAPER_DIMS which - v)%float.

(** ** Notions used in the statements *)

(** The first guard of the loop body: [entry[0] == "#"]. *)
Definition is_comment (line : string) : bool :=
  match line with
  | "" => false
  | String c _ => Ascii.eqb c HASH
  end.

(** The three ways the loop body extends the state. *)
Definition add_explicit (st : state) (f0 f1 f2 : string) : state :=
  State (data st ++ [(strip f2, strip f1)]) (errors st)
        (<[strip f2 := strip f0]> (sortDict st)).

Definition add_normal (st : state) (f0 f1 : string) : state :=
  State (data st ++ [(strip f0, strip f1)]) (errors st) (sortDict st).

Definition add_error (st : state) (fields : list string) : state :=
  State (data st) (errors st ++ [fields]) (sortDict st).

(** The first branch of the loop body, as a view of the line: the sort
    key, the display term and the page reference of a line that sets
    a sort key. *)
Definition explicit_fields (line : string) : option (string * string * string) :=
  if is_comment line || String.eqb line nl then None
  else match split TAB line with
       | [f0; f1; f2] =>
           if String.eqb (strip f2) "" then None
           else Some (strip f2, strip f0, strip f1)
       | _ => None
       end.

(** A string made of whitespace only. *)
Fixpoint all_space (s : string) : bool :=
  match s with
  | "" => true
  | String c s' => isspace c && all_space s'
  end.

(** A string that [strip] leaves alone. *)
Definition trimmed (s : string) : Prop := strip s = s.

(** What the parser guarantees about the fields it keeps. *)
Definition fields_trimmed (st : state) : Prop :=
  Forall (λ e : entry, trimmed e.1 ∧ trimmed e.2) (data st)
  ∧ map_Forall (λ k t, k ≠ "" ∧ trimmed k ∧ trimmed t) (sortDict st).

(** Two states that differ in [errors] only. *)
Definition same_entries (s1 s2 : state) : Prop :=
  data s1 = data s2 ∧ sortDict s1 = sortDict s2.

(** [a] may stand before [b] in a list sorted on the key. *)
Definition key_le (a b : entry) : Prop := str_le (key a) (key b) = true.

(** The two guards that make the loop body [continue]. *)
Definition skipped (line : string) : bool :=
  is_comment line || String.eqb line nl.

(** The second and third branch of the loop body as views of the line,
    beside [explicit_fields]: the sort key, display term and page
    reference of a line that becomes an entry (a normal entry sorts on
    its display term), and the fields of a line that goes to
    [errors]. *)
Definition line_record (line : string) : option (string * string * string) :=
  if skipped line then None
  else match split TAB line with
       | [f0; f1; f2] =>
           if String.eqb (strip f2) "" then Some (strip f0, strip f0, strip f1)
           else Some (strip f2, strip f0, strip f1)
       | [f0; f1] => Some (strip f0, strip f0, strip f1)
       | _ => None
       end.

(** What the line appends to [data]. *)
Definition line_entry (line : string) : option entry :=
  (λ r : string * string * string, (r.1.1, r.2)) <$> line_record line.

(** What the line appends to [errors]. *)
Definition line_error (line : string) : option (list string) :=
  if skipped line then None
  else let fields := split TAB line in
       if (length fields =? 2)%nat || (length fields =? 3)%nat then None
       else Some fields.

(** What the line does to [sortDict]. *)
Definition line_sortDict (d : gmap string string) (line : string)
  : gmap string string :=
  match explicit_fields line with
  | Some (k, term, _) => <[k := term]> d
  | None => d
  end.

(** The third test of [getPaperSize] passed, with the two before it. *)
Definition acceptable (which : dim) (ps : float) : bool :=
  negb (PAPER_DIMS which <? ps)%float && negb (ps <=? 0)%float
  && negb (PAPER_DIMS which - ps <? 1.0)%float.

(** An answer [getPaperSize] turns down: no number, or a number that
    fails one of the tests. *)
Definition turned_down (which : dim) (a : option float) : bool :=
  match a with
  | None => true
  | Some ps => negb (acceptable which ps)
  end.

(** The character [c] occurs in [s]. *)
Fixpoint occurs (c : ascii) (s : string) : bool :=
  match s with
  | "" => false
  | String c' s' => Ascii.eqb c' c || occurs c s'
  end.

(** A string with a newline at its end at most. *)
Definition nl_at_end (s : string) : Prop :=
  ∃ b, occurs NL b = false ∧ (s = b ∨ s = b +:+ nl).

(** A string without tab and without newline. *)
Definition plain (s : string) : Prop :=
  occurs TAB s = false ∧ occurs NL s = false.

(** * Properties *)

(** ** Strings *)

Lemma rstrip_empty s : rstrip s = "" ↔ lstrip s = "".
Proof.
  induction s as [|c s IH]; simpl; [done|].
  destruct (isspace c) eqn:Ec.
  - rewrite <- IH. by destruct (rstrip s).
  - by destruct (rstrip s).
Qed.

Lemma strip_empty s : strip s = "" ↔ lstrip s = "".
Proof.
  unfold strip. rewrite rstrip_empty.
  induction s as [|c s IH]; simpl; [done|].
  destruct (isspace c) eqn:Ec; [done|]. simpl. by rewrite Ec.
Qed.

Lemma lstrip_all_space s : lstrip s = "" ↔ all_space s = true.
Proof.
  induction s as [|c s IH]; simpl; [done|].
  destruct (isspace c); simpl; [done|]. split; discriminate.
Qed.

Lemma strip_all_space s : strip s = "" ↔ all_space s = true.
Proof. by rewrite strip_empty, lstrip_all_space. Qed.

Lemma rstrip_idemp s : rstrip (rstrip s) = rstrip s.
Proof.
  induction s as [|c s IH]; simpl; [done|].
  destruct (rstrip s) as [|c' r] eqn:E.
  - destruct (isspace c) eqn:Ec; simpl; [done|]. by rewrite Ec.
  - simpl in *. by rewrite IH.
Qed.

Lemma lstrip_idemp s : lstrip (lstrip s) = lstrip s.
Proof.
  induction s as [|c s IH]; simpl; [done|].
  destruct (isspace c) eqn:Ec; [done|]. simpl. by rewrite Ec.
Qed.

(** The first character of a left-stripped string is not whitespace. *)
Lemma lstrip_head s c r : lstrip s = String c r → isspace c = false.
Proof.
  induction s as [|c' s IH]; simpl; [done|].
  destruct (isspace c') eqn:Ec; [done|]. by intros [= <- <-].
Qed.

Lemma rstrip_head c r : isspace c = false → ∃ r', rstrip (String c r) = String c r'.
Proof.
  intros Hc. simpl. rewrite Hc. destruct (rstrip r); eauto.
Qed.

Lemma strip_idemp s : strip (strip s) = strip s.
Proof.
  unfold strip. destruct (lstrip s) as [|c r] eqn:E; [done|].
  apply lstrip_head in E as Hc.
  destruct (rstrip_head c r Hc) as [r' Hr].
  rewrite Hr at 1. simpl lstrip. rewrite Hc, <- Hr. apply rstrip_idemp.
Qed.

Lemma append_cons c s t : String c s +:+ t = String c (s +:+ t).
Proof. reflexivity. Qed.

Lemma append_empty_r s : s +:+ "" = s.
Proof. induction s as [|c s IH]; [done|]. by rewrite append_cons, IH. Qed.

Lemma append_assoc s t u : (s +:+ t) +:+ u = s +:+ (t +:+ u).
Proof. induction s as [|c s IH]; [done|]. by rewrite !append_cons, IH. Qed.

Lemma split_nonnil sep s : split sep s ≠ [].
Proof.
  destruct s as [|c s]; simpl; [done|].
  destruct (Ascii.eqb c sep); [done|]. by destruct (split sep s).
Qed.

Lemma readlines_nonempty f : Forall (λ l, l ≠ "") (readlines f).
Proof.
  induction f as [|c f IH]; simpl; [constructor|].
  destruct (Ascii.eqb c NL); [by constructor|].
  destruct (readlines f) as [|l ls]; [by repeat constructor|].
  inversion_clear IH. by constructor.
Qed.

(** No line handed out by the file iterator holds a newline before its
    last character. *)
Lemma readlines_app_nl f g :
  readlines (f +:+ nl +:+ g) = (readlines (f +:+ nl) ++ readlines g)%list.
Proof.
  induction f as [|c f IH]; simpl; [done|].
  destruct (Ascii.eqb c NL); [by rewrite IH|].
  rewrite IH. destruct (readlines (f +:+ nl)) eqn:E; [|done].
  exfalso. clear -E. induction f as [|c' f IH]; simpl in E; [done|].
  destruct (Ascii.eqb c' NL); [done|]. by destruct (readlines (f +:+ nl)).
Qed.

(** ** The order on sort keys *)

Lemma str_le_refl a : str_le a a = true.
Proof. unfold str_le. by destruct (String.leb_total a a). Qed.

Lemma str_le_total a b : str_le a b = true ∨ str_le b a = true.
Proof. apply String.leb_total. Qed.

Lemma str_le_antisym a b : str_le a b = true → str_le b a = true → a = b.
Proof. apply String.leb_antisym. Qed.

Lemma str_le_trans a b c :
  str_le a b = true → str_le b c = true → str_le a c = true.
Proof.
  unfold str_le, String.leb. revert b c.
  induction a as [|x a IH]; intros [|y b] [|z c]; simpl; try done.
  unfold Ascii.compare.
  destruct (N.compare_spec (N_of_ascii x) (N_of_ascii y)),
           (N.compare_spec (N_of_ascii y) (N_of_ascii z)),
           (N.compare_spec (N_of_ascii x) (N_of_ascii z));
    try done; try lia.
  apply IH.
Qed.

Lemma key_le_trans a b c : key_le a b → key_le b c → key_le a c.
Proof. apply str_le_trans. Qed.

Lemma key_le_total a b : key_le a b ∨ key_le b a.
Proof. apply str_le_total. Qed.

(** ** The stable sort *)

Lemma insert_entry_perm x l : insert_entry x l ≡ₚ x :: l.
Proof.
  induction l as [|y l IH]; simpl; [done|].
  destruct (str_le (key x) (key y)); [done|].
  by rewrite IH, Permutation_swap.
Qed.

Lemma sort_entries_perm l : sort_entries l ≡ₚ l.
Proof.
  induction l as [|x l IH]; simpl; [done|].
  by rewrite insert_entry_perm, IH.
Qed.

Lemma insert_entry_sorted x l :
  StronglySorted key_le l → StronglySorted key_le (insert_entry x l).
Proof.
  induction 1 as [|y l Hl IH Hy]; simpl; [by repeat constructor|].
  destruct (str_le (key x) (key y)) eqn:E.
  - constructor; [by constructor|]. constructor; [done|].
    eapply Forall_impl; [exact Hy|]. intros z Hz. by eapply key_le_trans.
  - constructor; [done|]. rewrite insert_entry_perm. constructor; [|done].
    destruct (key_le_total x y) as [H|H]; [|done].
    unfold key_le in H. congruence.
Qed.

Lemma sort_entries_sorted l : StronglySorted key_le (sort_entries l).
Proof.
  induction l as [|x l IH]; simpl; [constructor|].
  by apply insert_entry_sorted.
Qed.

(** Inserting moves [x] only past entries with a different key. *)
Lemma insert_entry_filter k x l :
  filter (λ e, key e = k) (insert_entry x l) = filter (λ e, key e = k) (x :: l).
Proof.
  induction l as [|y l IH]; simpl; [done|].
  destruct (str_le (key x) (key y)) eqn:E; [done|].
  assert (key x ≠ key y) as Hne.
  { intros Heq. rewrite Heq, str_le_refl in E. done. }
  rewrite filter_cons, IH, !filter_cons.
  repeat case_decide; congruence.
Qed.

Lemma sort_entries_filter k l :
  filter (λ e, key e = k) (sort_entries l) = filter (λ e, key e = k) l.
Proof.
  induction l as [|x l IH]; simpl; [done|].
  by rewrite insert_entry_filter, !filter_cons, IH.
Qed.

Lemma sorted_lookup_le (l : list entry) i j a b :
  StronglySorted key_le l → i < j →
  l !! i = Some a → l !! j = Some b → key_le a b.
Proof.
  intros Hs. revert i j. induction Hs as [|x l Hl IH Hx]; intros i j Hij Hi Hj.
  { by rewrite lookup_nil in Hi. }
  destruct j as [|j]; [lia|]. simpl in Hj.
  destruct i as [|i]; simpl in Hi.
  - injection Hi as <-. rewrite Forall_forall in Hx. apply Hx.
    by eapply list_elem_of_lookup_2.
  - apply (IH i j); [lia|done..].
Qed.

(** Two lists sorted on the key in which the entries of every key
    come in the same order are the same list: a stable sort has one
    possible result. *)
Lemma stable_sorted_unique (l1 l2 : list entry) :
  StronglySorted key_le l1 → StronglySorted key_le l2 →
  (∀ k, filter (λ e, key e = k) l1 = filter (λ e, key e = k) l2) →
  l1 = l2.
Proof.
  intros H1. revert l2. induction H1 as [|x l1 Hl1 IH Hx]; intros l2 H2 Hf.
  - destruct l2 as [|y l2]; [done|].
    specialize (Hf (key y)). rewrite filter_nil, filter_cons_True in Hf; done.
  - destruct H2 as [|y l2 Hl2 Hy].
    { specialize (Hf (key x)). rewrite filter_nil, filter_cons_True in Hf; done. }
    assert (x ∈ y :: l2) as Hxin.
    { assert (x ∈ filter (λ e, key e = key x) (y :: l2)) as H.
      { rewrite <- Hf, filter_cons_True by done. left. }
      by apply list_elem_of_filter in H as [_ ?]. }
    assert (y ∈ x :: l1) as Hyin.
    { assert (y ∈ filter (λ e, key e = key y) (x :: l1)) as H.
      { rewrite Hf, filter_cons_True by done. left. }
      by apply list_elem_of_filter in H as [_ ?]. }
    assert (key x = key y) as Hk.
    { apply str_le_antisym.
      - apply elem_of_cons in Hyin as [->|Hyin]; [apply str_le_refl|].
        rewrite Forall_forall in Hx. by apply Hx.
      - apply elem_of_cons in Hxin as [->|Hxin]; [apply str_le_refl|].
        rewrite Forall_forall in Hy. by apply Hy. }
    assert (x = y) as ->.
    { specialize (Hf (key x)).
      rewrite filter_cons_True, filter_cons_True in Hf by done. congruence. }
    f_equal. apply IH; [done|]. intros k. specialize (Hf k).
    rewrite !filter_cons in Hf. case_decide; congruence.
Qed.

(** Whatever stable sort [list.sort] runs, it returns [sort_entries]. *)
Lemma sort_entries_unique l l' :
  StronglySorted key_le l' →
  (∀ k, filter (λ e, key e = k) l' = filter (λ e, key e = k) l) →
  l' = sort_entries l.
Proof.
  intros Hs Hf. apply stable_sorted_unique; [done|apply sort_entries_sorted|].
  intros k. by rewrite Hf, sort_entries_filter.
Qed.

(** ** The loop of [readContent] *)

(** The body of the loop, by the shape of the split line. *)
Lemma loop_body_cases st line :
  line ≠ "" → is_comment line = false → line ≠ nl →
  loop_body st line =
    match split TAB line with
    | [f0; f1; f2] =>
        if String.eqb (strip f2) "" then Some (add_normal st f0 f1)
        else Some (add_explicit st f0 f1 f2)
    | [f0; f1] => Some (add_normal st f0 f1)
    | fields => Some (add_error st fields)
    end.
Proof.
  intros Hne Hc Hnl. destruct line as [|c line]; [done|].
  unfold loop_body. simpl in Hc. rewrite Hc.
  apply String.eqb_neq in Hnl. rewrite Hnl.
  destruct (split TAB (String c line)) as [|f0 [|f1 [|f2 [|f3 fs]]]]; try done.
  simpl. unfold field. simpl. by destruct (String.eqb (strip f2) "").
Qed.

Lemma loop_body_skip st line :
  is_comment line = true ∨ line = nl → loop_body st line = Some st.
Proof.
  intros [Hc| ->]; [|done].
  destruct line as [|c line]; [done|]. simpl in *. by rewrite Hc.
Qed.

Lemma loop_body_total st line : line ≠ "" → is_Some (loop_body st line).
Proof.
  intros Hne. destruct (is_comment line) eqn:Hc.
  { rewrite loop_body_skip; eauto. }
  destruct (decide (line = nl)) as [Hnl|Hnl].
  { rewrite loop_body_skip; eauto. }
  rewrite loop_body_cases by done.
  destruct (split TAB line) as [|f0 [|f1 [|f2 [|f3 fs]]]]; eauto.
  destruct (String.eqb (strip f2) ""); eauto.
Qed.

Lemma loop_app st ls1 ls2 :
  loop st (ls1 ++ ls2) = st' ← loop st ls1; loop st' ls2.
Proof.
  revert st. induction ls1 as [|l ls1 IH]; intros st; simpl; [done|].
  destruct (loop_body st l); simpl; [apply IH|done].
Qed.

Lemma loop_total st ls : Forall (λ l, l ≠ "") ls → is_Some (loop st ls).
Proof.
  intros H. revert st. induction H as [|l ls Hl _ IH]; intros st; simpl; [eauto|].
  destruct (loop_body_total st l Hl) as [st' ->]. simpl. apply IH.
Qed.

Lemma parse_total f : is_Some (parse f).
Proof. apply loop_total, readlines_nonempty. Qed.

Lemma readContent_parse f stdin :
  ∃ st, parse f = Some st
        ∧ readContent f stdin
          = match errors st with
            | [] => ([], Some (normalize st, stdin))
            | _ :: _ =>
                (error_report (errors st),
                 match stdin with
                 | [] => None
                 | _ :: rest => Some (normalize st, rest)
                 end)
            end.
Proof.
  unfold readContent. destruct (parse_total f) as [st ->]. by exists st.
Qed.

Lemma readContent_returned f stdin pr out rest :
  readContent f stdin = (pr, Some (out, rest)) →
  ∃ st, parse f = Some st ∧ out = normalize st.
Proof.
  destruct (readContent_parse f stdin) as (st & Hp & ->). intros H.
  exists st. split; [done|].
  destruct (errors st); [by injection H as _ <- _|].
  destruct stdin; [done|]. by injection H as _ <- _.
Qed.

(** Every way the loop body can change the state. *)
Lemma loop_body_ind (P : state → Prop) st line st' :
  loop_body st line = Some st' →
  P st →
  (∀ f0 f1 f2, strip f2 ≠ "" → P (add_explicit st f0 f1 f2)) →
  (∀ f0 f1, P (add_normal st f0 f1)) →
  (∀ fields, P (add_error st fields)) →
  P st'.
Proof.
  intros Hb Hskip Hexp Hnorm Herr.
  destruct (decide (line = "")) as [->|Hne]; [done|].
  destruct (is_comment line) eqn:Hc.
  { rewrite loop_body_skip in Hb by eauto. by injection Hb as <-. }
  destruct (decide (line = nl)) as [Hnl|Hnl].
  { rewrite loop_body_skip in Hb by eauto. by injection Hb as <-. }
  rewrite loop_body_cases in Hb by done.
  destruct (split TAB line) as [|f0 [|f1 [|f2 [|f3 fs]]]];
    try (injection Hb as <-; done).
  destruct (String.eqb_spec (strip f2) ""); injection Hb as <-; eauto.
Qed.

Lemma loop_ind (P : state → Prop) st ls st' :
  loop st ls = Some st' →
  P st →
  (∀ s f0 f1 f2, P s → strip f2 ≠ "" → P (add_explicit s f0 f1 f2)) →
  (∀ s f0 f1, P s → P (add_normal s f0 f1)) →
  (∀ s fields, P s → P (add_error s fields)) →
  P st'.
Proof.
  intros Hl H0 Hexp Hnorm Herr. revert st Hl H0.
  induction ls as [|l ls IH]; intros st Hl H0; simpl in Hl.
  { by injection Hl as <-. }
  destruct (loop_body st l) as [s|] eqn:Hb; [|done]. simpl in Hl.
  apply (IH s Hl). eapply loop_body_ind; eauto.
Qed.

Lemma strip_trimmed s : trimmed (strip s).
Proof. apply strip_idemp. Qed.

Lemma loop_fields_trimmed st ls st' :
  loop st ls = Some st' → fields_trimmed st → fields_trimmed st'.
Proof.
  intros Hl H0. apply (loop_ind fields_trimmed st ls st' Hl H0).
  - intros s f0 f1 f2 [Hd Hm] Hne. split; simpl.
    + apply Forall_app. split; [done|].
      repeat constructor; apply strip_trimmed.
    + apply map_Forall_insert_2; [|done].
      split; [done|]. split; apply strip_trimmed.
  - intros s f0 f1 [Hd Hm]. split; simpl; [|done].
    apply Forall_app. split; [done|]. repeat constructor; apply strip_trimmed.
  - by intros s fields [Hd Hm].
Qed.

(** * The claims *)

(** C1.  A line that is not skipped and splits on TAB into exactly
    three fields with a non-empty trimmed third field records
    [strip f2 -> strip f0] in [sortDict] and appends the provisional
    entry [(strip f2, strip f1)]; with an empty trimmed third field, or
    with exactly two fields, it appends [(strip f0, strip f1)] and
    leaves [sortDict] alone.  A whitespace-only third field is trimmed
    to the empty string first, so the line is a normal entry. *)
Theorem loop_body_classify st line :
  is_comment line = false → line ≠ nl →
  (∀ f0 f1 f2, split TAB line = [f0; f1; f2] → strip f2 ≠ "" →
     loop_body st line =
       Some (State (data st ++ [(strip f2, strip f1)]) (errors st)
                   (<[strip f2 := strip f0]> (sortDict st))))
  ∧ (∀ f0 f1 f2, split TAB line = [f0; f1; f2] → strip f2 = "" →
     loop_body st line =
       Some (State (data st ++ [(strip f0, strip f1)]) (errors st) (sortDict st)))
  ∧ (∀ f0 f1, split TAB line = [f0; f1] →
     loop_body st line =
       Some (State (data st ++ [(strip f0, strip f1)]) (errors st) (sortDict st)))
  ∧ (∀ f0 f1 f2, split TAB line = [f0; f1; f2] → all_space f2 = true →
     loop_body st line =
       Some (State (data st ++ [(strip f0, strip f1)]) (errors st) (sortDict st))).
Proof.
  intros Hc Hnl.
  assert (∀ fs, split TAB line = fs → (2 ≤ length fs)%nat →
            loop_body st line =
              match fs with
              | [f0; f1; f2] =>
                  if String.eqb (strip f2) "" then Some (add_normal st f0 f1)
                  else Some (add_explicit st f0 f1 f2)
              | [f0; f1] => Some (add_normal st f0 f1)
              | fields => Some (add_error st fields)
              end) as Hcases.
  { intros fs Hs Hlen.
    assert (line ≠ "") as Hne.
    { intros ->. rewrite <- Hs in Hlen. simpl in Hlen. lia. }
    rewrite (loop_body_cases st line Hne Hc Hnl), Hs.
    by destruct fs as [|f0 [|f1 [|f2 [|f3 fs]]]]. }
  repeat split.
  - intros f0 f1 f2 Hs Hk. rewrite (Hcases _ Hs) by (simpl; lia).
    apply String.eqb_neq in Hk. by rewrite Hk.
  - intros f0 f1 f2 Hs Hk. rewrite (Hcases _ Hs) by (simpl; lia).
    by rewrite Hk.
  - intros f0 f1 Hs. by rewrite (Hcases _ Hs) by (simpl; lia).
  - intros f0 f1 f2 Hs Hk. rewrite (Hcases _ Hs) by (simpl; lia).
    apply strip_all_space in Hk. by rewrite Hk.
Qed.

Lemma loop_body_classify_witness :
  loop_body init ("Dr. Smith" +:+ tab +:+ "3" +:+ tab +:+ "Smith" +:+ nl)
  = Some (State [("Smith", "3")] [] (<["Smith" := "Dr. Smith"]> ∅)).
Proof.
  apply (proj1 (loop_body_classify init
                  ("Dr. Smith" +:+ tab +:+ "3" +:+ tab +:+ "Smith" +:+ nl)
                  eq_refl ltac:(discriminate))
           "Dr. Smith" "3" ("Smith" +:+ nl)).
  - reflexivity.
  - discriminate.
Defined.

(** A third field of blanks only. *)
Example blank_sort_key_is_normal :
  loop_body init ("a" +:+ tab +:+ "1" +:+ tab +:+ "  " +:+ nl)
  = Some (State [("a", "1")] [] ∅).
Proof. reflexivity. Qed.

(** C2.  [data.sort(key=lambda x: x[0].lower())] rearranges the
    entries, puts them in non-decreasing order of the lowercased first
    field, and keeps entries with the same lowercased first field in
    their input order. *)
Theorem sort_entries_sorted_stable (l : list entry) :
  sort_entries l ≡ₚ l
  ∧ (∀ i j a b, (i < j)%nat →
       sort_entries l !! i = Some a → sort_entries l !! j = Some b →
       str_le (lower a.1) (lower b.1) = true)
  ∧ (∀ k, filter (λ e : entry, lower e.1 = k) (sort_entries l)
          = filter (λ e : entry, lower e.1 = k) l).
Proof.
  split; [apply sort_entries_perm|]. split.
  - intros i j a b Hij Ha Hb.
    exact (sorted_lookup_le _ i j a b (sort_entries_sorted l) Hij Ha Hb).
  - intros k. apply sort_entries_filter.
Qed.

Example sort_apple_Apple :
  sort_entries [("b", "9"); ("apple", "1"); ("Apple", "2"); ("a", "3")]
  = [("a", "3"); ("apple", "1"); ("Apple", "2"); ("b", "9")].
Proof. reflexivity. Qed.

(** C4 (as the code has it).  Every field the parser keeps is stored
    trimmed, and every sort key it records is non-empty; the display
    term and the page reference are not tested for emptiness. *)
Theorem parse_fields_trimmed f st :
  parse f = Some st →
  (∀ e : entry, e ∈ data st → strip e.1 = e.1 ∧ strip e.2 = e.2)
  ∧ (∀ k t, sortDict st !! k = Some t →
       k ≠ "" ∧ strip k = k ∧ strip t = t).
Proof.
  intros Hp.
  assert (fields_trimmed init) as H0.
  { split; [constructor|apply map_Forall_empty]. }
  destruct (loop_fields_trimmed _ _ _ Hp H0) as [Hd Hm]. split.
  - intros e He. rewrite Forall_forall in Hd. by apply Hd.
  - intros k t Hk. by apply (Hm k t).
Qed.

Lemma parse_fields_trimmed_witness :
  (∀ e : entry, e ∈ [("Smith", "3")] → strip e.1 = e.1 ∧ strip e.2 = e.2)
  ∧ (∀ k t, (<["Smith" := "Dr. Smith"]> ∅ : gmap string string) !! k = Some t →
       k ≠ "" ∧ strip k = k ∧ strip t = t).
Proof.
  exact (parse_fields_trimmed
           (" Dr. Smith " +:+ tab +:+ "3" +:+ tab +:+ " Smith" +:+ nl)
           (State [("Smith", "3")] [] (<["Smith" := "Dr. Smith"]> ∅))
           eq_refl).
Defined.

(** C4 as stated fails: a line made of one TAB is kept as an entry
    whose display term and page reference are both empty. *)
Lemma empty_fields_retained :
  parse (tab +:+ nl) = Some (State [("", "")] [] ∅)
  ∧ ¬ (∀ e : entry, e ∈ [("", "")] → strip e.1 ≠ "" ∧ strip e.2 ≠ "").
Proof.
  split; [reflexivity|].
  intros H. destruct (H ("", "")) as [H1 _]; [left|]. by apply H1.
Qed.

(** C5 (as the code has it).  The loop body leaves the state as it is
    exactly for a line whose first character is [#] and for a line that
    is a lone newline. *)
Theorem loop_body_skips st line :
  loop_body st line = Some st ↔ is_comment line = true ∨ line = nl.
Proof.
  split; [|apply loop_body_skip].
  intros Hb. destruct (is_comment line) eqn:Hc; [by left|].
  destruct (decide (line = nl)) as [Hnl|Hnl]; [by right|].
  exfalso. destruct (decide (line = "")) as [->|Hne]; [done|].
  rewrite loop_body_cases in Hb by done.
  assert (∀ (A : Type) (l : list A) x, (l ++ [x])%list ≠ l) as Hgrow.
  { intros A l x Heq. apply (f_equal length) in Heq.
    rewrite length_app in Heq. simpl in Heq. lia. }
  destruct st as [d e m].
  destruct (split TAB line) as [|f0 [|f1 [|f2 [|f3 fs]]]];
    try destruct (String.eqb (strip f2) "");
    injection Hb; simpl; intros;
    match goal with H : (_ ++ [_])%list = _ |- _ => by apply Hgrow in H end.
Qed.

Lemma loop_body_skips_witness :
  loop_body init ("# a comment" +:+ nl) = Some init
  ∧ loop_body init nl = Some init.
Proof.
  split.
  - apply (proj2 (loop_body_skips init ("# a comment" +:+ nl))).
    left. reflexivity.
  - apply (proj2 (loop_body_skips init nl)). right. reflexivity.
Defined.

(** C5 as stated fails: the first line below begins with [#] only
    after trimming, the second is made of blanks; neither is skipped,
    both have one field and land in [errors]. *)
Lemma indented_comment_not_skipped :
  is_comment (strip (" # note" +:+ nl)) = true
  ∧ loop_body init (" # note" +:+ nl)
    = Some (State [] [[" # note" +:+ nl]] ∅)
  ∧ all_space ("  " +:+ nl) = true
  ∧ loop_body init ("  " +:+ nl) = Some (State [] [["  " +:+ nl]] ∅).
Proof. repeat split; reflexivity. Qed.

Lemma loop_body_same_entries s1 s2 line s1' :
  same_entries s1 s2 → loop_body s1 line = Some s1' →
  ∃ s2', loop_body s2 line = Some s2' ∧ same_entries s1' s2'.
Proof.
  intros [Hd Hm] Hb.
  destruct (decide (line = "")) as [->|Hne]; [done|].
  destruct (is_comment line) eqn:Hc.
  { rewrite loop_body_skip in Hb |- * by eauto. injection Hb as <-.
    by exists s2. }
  destruct (decide (line = nl)) as [Hnl|Hnl].
  { rewrite loop_body_skip in Hb |- * by eauto. injection Hb as <-.
    by exists s2. }
  rewrite loop_body_cases in Hb |- * by done.
  destruct (split TAB line) as [|f0 [|f1 [|f2 [|f3 fs]]]];
    try destruct (String.eqb (strip f2) "");
    injection Hb as <-; eexists; (split; [done|]);
    unfold same_entries; simpl; by rewrite Hd, Hm.
Qed.

Lemma loop_same_entries s1 s2 ls s1' :
  same_entries s1 s2 → loop s1 ls = Some s1' →
  ∃ s2', loop s2 ls = Some s2' ∧ same_entries s1' s2'.
Proof.
  revert s1 s2. induction ls as [|l ls IH]; intros s1 s2 Hs Hl; simpl in *.
  { injection Hl as <-. by exists s2. }
  destruct (loop_body s1 l) as [t1|] eqn:Hb; [|done]. simpl in Hl.
  destruct (loop_body_same_entries _ _ _ _ Hs Hb) as (t2 & -> & Ht).
  simpl. by apply (IH t1).
Qed.

Lemma loop_errors_kept st ls st' fields :
  loop st ls = Some st' → fields ∈ errors st → fields ∈ errors st'.
Proof.
  intros Hl H0. apply (loop_ind (λ s, fields ∈ errors s) st ls st' Hl H0); try done.
  intros s fs Hs. simpl. apply elem_of_app. by left.
Qed.

(** C7 (as the code has it).  A line that is not skipped is appended
    to [errors], as the list of its fields, exactly when the number of
    its fields is neither 2 nor 3 (a line of three fields has one of
    the two shapes of an entry).  Such a line adds nothing to [data]
    or [sortDict]: the lines before and after it are parsed as they
    are without it.  The loop raises for no file.  After the loop,
    when [errors] is empty [readContent] returns at once; when a line
    was rejected it prints the report and reads a line of [stdin]: it
    returns when there is one and raises [EOFError] when [stdin] is at
    its end. *)
Theorem rejected_line_isolated line :
  line ≠ "" → is_comment line = false → line ≠ nl →
  (∀ st, loop_body st line
           = Some (State (data st) (errors st ++ [split TAB line]) (sortDict st))
         ↔ length (split TAB line) ≠ 2 ∧ length (split TAB line) ≠ 3)
  ∧ (length (split TAB line) ≠ 2 → length (split TAB line) ≠ 3 →
     ∀ st before after st',
       loop st (before ++ line :: after) = Some st' →
       split TAB line ∈ errors st'
       ∧ ∃ st'', loop st (before ++ after) = Some st''
                 ∧ data st'' = data st' ∧ sortDict st'' = sortDict st'
                 ∧ normalize st'' = normalize st')
  ∧ (∀ f stdin, ∃ st,
       parse f = Some st
       ∧ (errors st = [] →
          readContent f stdin = ([], Some (normalize st, stdin)))
       ∧ (errors st ≠ [] → ∀ l rest, stdin = l :: rest →
          readContent f stdin
          = (error_report (errors st), Some (normalize st, rest)))
       ∧ (errors st ≠ [] → stdin = [] →
          readContent f stdin = (error_report (errors st), None))).
Proof.
  intros Hne Hc Hnl.
  assert (∀ (A : Type) (l : list A) x, (l ++ [x])%list ≠ l) as Hgrow.
  { intros A l x Heq. apply (f_equal length) in Heq.
    rewrite length_app in Heq. simpl in Heq. lia. }
  assert (length (split TAB line) ≠ 2 → length (split TAB line) ≠ 3 →
          ∀ st, loop_body st line = Some (add_error st (split TAB line))) as Hrej.
  { intros H2 H3 st. rewrite loop_body_cases by done.
    by destruct (split TAB line) as [|f0 [|f1 [|f2 [|f3 fs]]]]. }
  split; [|split].
  - intros st. split; [|intros [H2 H3]; by apply Hrej].
    rewrite loop_body_cases by done. destruct st as [d e m].
    destruct (split TAB line) as [|f0 [|f1 [|f2 [|f3 fs]]]]; simpl; try done;
      try destruct (String.eqb (strip f2) "");
      intros Hb; injection Hb; intros;
      match goal with H : (_ ++ [_])%list = _ |- _ => by apply Hgrow in H end.
  - intros H2 H3 st before after st' Hl.
    rewrite loop_app in Hl.
    destruct (loop st before) as [s|] eqn:Hbefore; [|done]. simpl in Hl.
    rewrite (Hrej H2 H3) in Hl. simpl in Hl. split.
    + apply (loop_errors_kept _ _ _ _ Hl). simpl. apply elem_of_app.
      right. left.
    + destruct (loop_same_entries (add_error s (split TAB line)) s after st')
        as (st'' & Hl' & Hd & Hm); [done|done|].
      exists st''. rewrite loop_app, Hbefore. simpl.
      repeat split; [done..|]. unfold normalize. by rewrite Hd, Hm.
  - intros f stdin. destruct (readContent_parse f stdin) as (st & Hp & Hr).
    exists st. split; [done|]. rewrite Hr. repeat split.
    + by intros ->.
    + intros He l rest ->. by destruct (errors st).
    + intros He ->. by destruct (errors st).
Qed.

Lemma rejected_line_isolated_witness :
  loop_body init ("A" +:+ tab +:+ "B" +:+ tab +:+ "C" +:+ tab +:+ "D" +:+ nl)
  = Some (State [] [["A"; "B"; "C"; "D" +:+ nl]] ∅).
Proof.
  apply (proj2 (proj1 (rejected_line_isolated
           ("A" +:+ tab +:+ "B" +:+ tab +:+ "C" +:+ tab +:+ "D" +:+ nl)
           ltac:(discriminate) eq_refl ltac:(discriminate)) init)).
  split; discriminate.
Defined.

(** C7 as stated fails on "never raise a fatal error or abort the
    run": with a rejected line in the file and [stdin] at its end,
    [readContent] prints the report and raises [EOFError]. *)
Lemma rejected_line_at_end_of_stdin :
  errors <$> parse ("oops" +:+ nl) = Some [["oops" +:+ nl]]
  ∧ readContent ("oops" +:+ nl) []
    = (error_report [["oops" +:+ nl]], None).
Proof. split; reflexivity. Qed.

(** A line of three fields is an entry, never a rejected line. *)
Example three_fields_not_rejected :
  length (split TAB ("a" +:+ tab +:+ "b" +:+ tab +:+ "c" +:+ nl)) ≠ 2
  ∧ loop_body init ("a" +:+ tab +:+ "b" +:+ tab +:+ "c" +:+ nl)
    = Some (State [("c", "b")] [] (<["c" := "a"]> ∅)).
Proof. split; [discriminate|reflexivity]. Qed.

Lemma formatIndex_from_app index l :
  formatIndex_from index l = index +:+ formatIndex_from "" l.
Proof.
  revert index. induction l as [|i l IH]; intros index; simpl.
  - by rewrite append_empty_r.
  - change ("" +:+ item i) with (item i).
    by rewrite (IH (index +:+ item i)), (IH (item i)), append_assoc.
Qed.

(** C8.  [formatIndex] writes one item per entry, in order, with
    nothing between and nothing after them: the marker [\item ~], the
    display term, a comma, a blank, the page reference, both fields as
    they are.  No entry gives the empty string. *)
Theorem formatIndex_items :
  formatIndex [] = ""
  ∧ (∀ l, formatIndex l = foldr (λ i rest, item i +:+ rest) "" l)
  ∧ (∀ l1 l2, formatIndex (l1 ++ l2) = formatIndex l1 +:+ formatIndex l2)
  ∧ (∀ term page, item (term, page) = "\item ~" +:+ term +:+ ", " +:+ page).
Proof.
  pose proof formatIndex_from_app as Hfrom.
  assert (∀ i l, formatIndex (i :: l) = item i +:+ formatIndex l) as Hcons.
  { intros i l. unfold formatIndex. simpl.
    change ("" +:+ item i) with (item i). apply Hfrom. }
  repeat split.
  - induction l as [|i l IH]; [done|]. by rewrite Hcons, IH.
  - induction l1 as [|i l1 IH]; intros l2; [done|].
    change (formatIndex (i :: (l1 ++ l2)%list)
            = formatIndex (i :: l1) +:+ formatIndex l2).
    by rewrite !Hcons, IH, append_assoc.
Qed.

Example formatIndex_two :
  formatIndex [("Dr. Smith", "3"); ("Zebra", "12, 45")]
  = "\item ~Dr. Smith, 3\item ~Zebra, 12, 45".
Proof. reflexivity. Qed.

(** ** The side table *)

Lemma explicit_fields_loop_body st line k term page :
  explicit_fields line = Some (k, term, page) →
  loop_body st line
  = Some (State (data st ++ [(k, page)]) (errors st) (<[k := term]> (sortDict st))).
Proof.
  unfold explicit_fields. intros H.
  destruct (is_comment line) eqn:Hc; [done|].
  destruct (String.eqb_spec line nl) as [|Hnl]; [done|]. simpl in H.
  assert (line ≠ "") as Hne by (by intros ->).
  rewrite loop_body_cases by done.
  destruct (split TAB line) as [|f0 [|f1 [|f2 [|f3 fs]]]]; try done.
  destruct (String.eqb (strip f2) ""); [done|]. by injection H as <- <- <-.
Qed.

(** A line that does not set the sort key [k] leaves its mapping. *)
Lemma loop_body_other_key st line st' k :
  (∀ term page, explicit_fields line ≠ Some (k, term, page)) →
  loop_body st line = Some st' →
  sortDict st' !! k = sortDict st !! k.
Proof.
  intros Hk Hb.
  destruct (decide (line = "")) as [->|Hne]; [done|].
  destruct (is_comment line) eqn:Hc.
  { rewrite loop_body_skip in Hb by eauto. by injection Hb as <-. }
  destruct (String.eqb_spec line nl) as [Hnl|Hnl].
  { rewrite loop_body_skip in Hb by eauto. by injection Hb as <-. }
  unfold explicit_fields in Hk. rewrite Hc in Hk.
  apply String.eqb_neq in Hnl as Hnl'. rewrite Hnl' in Hk. simpl in Hk.
  rewrite loop_body_cases in Hb by done.
  destruct (split TAB line) as [|f0 [|f1 [|f2 [|f3 fs]]]];
    try (by injection Hb as <-).
  destruct (String.eqb (strip f2) ""); injection Hb as <-; [done|]. simpl.
  apply lookup_insert_ne. intros Heq. by apply (Hk (strip f0) (strip f1)); rewrite Heq.
Qed.

Lemma loop_other_key st ls st' k :
  (∀ l term page, l ∈ ls → explicit_fields l ≠ Some (k, term, page)) →
  loop st ls = Some st' →
  sortDict st' !! k = sortDict st !! k.
Proof.
  revert st. induction ls as [|l ls IH]; intros st Hk Hl; simpl in Hl.
  { by injection Hl as <-. }
  destruct (loop_body st l) as [s|] eqn:Hb; [|done]. simpl in Hl.
  assert (sortDict st' !! k = sortDict s !! k) as ->.
  { apply IH; [|done]. intros l' t p Hin. apply Hk. by right. }
  eapply loop_body_other_key; [|done]. intros t p. apply Hk. left.
Qed.

Lemma loop_data_kept st ls st' e :
  loop st ls = Some st' → e ∈ data st → e ∈ data st'.
Proof.
  intros Hl H0. apply (loop_ind (λ s, e ∈ data s) st ls st' Hl H0);
    intros; simpl; try done; apply elem_of_app; by left.
Qed.

(** The mapping of [k] is the display term of the last line that sets
    the sort key [k]; that line's entry is in [data]. *)
Lemma loop_last_explicit st before line after st' k term page :
  explicit_fields line = Some (k, term, page) →
  (∀ l t p, l ∈ after → explicit_fields l ≠ Some (k, t, p)) →
  loop st (before ++ line :: after) = Some st' →
  sortDict st' !! k = Some term ∧ (k, page) ∈ data st'.
Proof.
  intros Hline Hafter Hl. rewrite loop_app in Hl.
  destruct (loop st before) as [s|] eqn:Hbefore; [|done]. simpl in Hl.
  rewrite (explicit_fields_loop_body s line k term page Hline) in Hl.
  simpl in Hl. split.
  - rewrite (loop_other_key _ _ _ k Hafter Hl). simpl. apply lookup_insert_eq.
  - apply (loop_data_kept _ _ _ _ Hl). simpl. apply elem_of_app. right. left.
Qed.

Lemma substitute_lookup d (l : list entry) i :
  substitute d l !! i = resolve d <$> l !! i.
Proof.
  revert i. induction l as [|x l IH]; intros [|i]; simpl; done.
Qed.

Lemma substitute_page_refs d (l : list entry) :
  map snd (substitute d l) = map snd l.
Proof.
  induction l as [|x l IH]; simpl; [done|]. f_equal; [|done].
  unfold resolve. by destruct (d !! x.1).
Qed.

Lemma resolve_no_key d (e : entry) : d !! e.1 = None → resolve d e = e.
Proof. unfold resolve. by intros ->. Qed.

Lemma resolve_key d (e : entry) term :
  d !! e.1 = Some term → resolve d e = (term, e.2).
Proof. unfold resolve. by intros ->. Qed.

(** C10.  When two lines set the same trimmed sort key, [sortDict]
    keeps the display term of the later one only; after the
    substitution pass every entry whose first field is that key - the
    entry of the earlier line, and any normal entry with that display
    term - shows the later line's display term. *)
Theorem shared_sort_key_last_wins before L1 between L2 after k t1 p1 t2 p2 st :
  explicit_fields L1 = Some (k, t1, p1) →
  explicit_fields L2 = Some (k, t2, p2) →
  (∀ l t p, l ∈ after → explicit_fields l ≠ Some (k, t, p)) →
  loop init (before ++ L1 :: between ++ L2 :: after) = Some st →
  sortDict st !! k = Some t2
  ∧ (k, p1) ∈ data st
  ∧ (t2, p1) ∈ normalize st
  ∧ (∀ i (e : entry), sort_entries (data st) !! i = Some e → e.1 = k →
       normalize st !! i = Some (t2, e.2)).
Proof.
  intros H1 H2 Hafter Hl.
  assert (sortDict st !! k = Some t2) as Hk.
  { refine (proj1 (loop_last_explicit init (before ++ L1 :: between) L2 after
                     st k t2 p2 H2 Hafter _)).
    by rewrite <- app_assoc. }
  assert ((k, p1) ∈ data st) as Hin.
  { rewrite loop_app in Hl.
    destruct (loop init before) as [s|] eqn:Hbefore; [|done]. simpl in Hl.
    rewrite (explicit_fields_loop_body s L1 k t1 p1 H1) in Hl. simpl in Hl.
    apply (loop_data_kept _ _ _ _ Hl). simpl. apply elem_of_app. right. left. }
  assert (∀ i (e : entry), sort_entries (data st) !! i = Some e → e.1 = k →
            normalize st !! i = Some (t2, e.2)) as Hout.
  { intros i e Hi He. unfold normalize. rewrite substitute_lookup, Hi. simpl.
    f_equal. apply resolve_key. by rewrite He. }
  repeat split; try done.
  rewrite <- sort_entries_perm in Hin.
  apply list_elem_of_lookup in Hin as [i Hi].
  apply list_elem_of_lookup. exists i. by apply (Hout i (k, p1)).
Qed.

Lemma shared_sort_key_last_wins_witness :
  let st := State [("Smith", "3"); ("Smith", "7"); ("Smith", "5")] []
                  (<["Smith" := "Smith, Jane"]> ∅) in
  sortDict st !! "Smith" = Some "Smith, Jane"
  ∧ ("Smith", "3") ∈ data st
  ∧ ("Smith, Jane", "3") ∈ normalize st
  ∧ (∀ i (e : entry), sort_entries (data st) !! i = Some e → e.1 = "Smith" →
       normalize st !! i = Some ("Smith, Jane", e.2)).
Proof.
  apply (shared_sort_key_last_wins
           []
           ("Smith, John" +:+ tab +:+ "3" +:+ tab +:+ "Smith" +:+ nl)
           ["Smith" +:+ tab +:+ "7" +:+ nl]
           ("Smith, Jane" +:+ tab +:+ "5" +:+ tab +:+ "Smith" +:+ nl)
           []
           "Smith" "Smith, John" "3" "Smith, Jane" "5").
  - reflexivity.
  - reflexivity.
  - intros l t p Hl. inversion Hl.
  - vm_compute. reflexivity.
Defined.

(** The line that sets a sort key last shows its own display term at
    the place of its sort key. *)
Lemma last_explicit_shows_own_term f before line after st k term page :
  readlines f = (before ++ line :: after)%list →
  explicit_fields line = Some (k, term, page) →
  (∀ l t p, l ∈ after → explicit_fields l ≠ Some (k, t, p)) →
  parse f = Some st →
  ∃ i, sort_entries (data st) !! i = Some (k, page)
       ∧ normalize st !! i = Some (term, page).
Proof.
  unfold parse. intros -> Hline Hafter Hl.
  destruct (loop_last_explicit _ _ _ _ _ _ _ _ Hline Hafter Hl) as [Hk Hin].
  rewrite <- sort_entries_perm in Hin.
  apply list_elem_of_lookup in Hin as [i Hi]. exists i. split; [done|].
  unfold normalize. rewrite substitute_lookup, Hi. simpl. f_equal.
  by apply resolve_key.
Qed.

Example readContent_Dr_Smith stdin :
  readContent ("Zebra" +:+ tab +:+ "9" +:+ nl
               +:+ "Dr. Smith" +:+ tab +:+ "3" +:+ tab +:+ "Smith" +:+ nl
               +:+ "apple" +:+ tab +:+ "1" +:+ nl) stdin
  = ([], Some ([("apple", "1"); ("Dr. Smith", "3"); ("Zebra", "9")], stdin)).
Proof. reflexivity. Qed.

(** C3 fails on the code: of two lines that set the same sort key, the
    entry of the earlier one is shown with the display term of the
    later one, not with its own first field. *)
Theorem earlier_line_loses_display_term stdin :
  readContent ("Smith, John" +:+ tab +:+ "3" +:+ tab +:+ "Smith" +:+ nl
               +:+ "Smith, Jane" +:+ tab +:+ "5" +:+ tab +:+ "Smith" +:+ nl)
              stdin
  = ([], Some ([("Smith, Jane", "3"); ("Smith, Jane", "5")], stdin)).
Proof. reflexivity. Qed.

(** The substitution pass never touches a page reference, nor an
    entry whose first field is no key of [sortDict]. *)
Lemma normalize_frame st :
  map snd (normalize st) = map snd (sort_entries (data st))
  ∧ (∀ i (e : entry), sort_entries (data st) !! i = Some e →
       sortDict st !! e.1 = None → normalize st !! i = Some e).
Proof.
  split; [apply substitute_page_refs|].
  intros i e Hi He. unfold normalize. rewrite substitute_lookup, Hi. simpl.
  f_equal. by apply resolve_no_key.
Qed.

(** C6 fails on the code: a normal entry whose display term is the
    same text as another line's sort key has its first field replaced
    as well. *)
Theorem normal_entry_renamed stdin :
  readContent ("Smith" +:+ tab +:+ "7" +:+ nl
               +:+ "Dr. Smith" +:+ tab +:+ "3" +:+ tab +:+ "Smith" +:+ nl)
              stdin
  = ([], Some ([("Dr. Smith", "7"); ("Dr. Smith", "3")], stdin)).
Proof. reflexivity. Qed.

(** ** Layout parameters *)

(** C9 (as the code has it).  The bounds are tested at the prompt:
    [getPaperSize] reports and asks again for an answer larger than
    the paper, not positive, or leaving less than 1.0 of margin, and
    returns only an answer that passes the three tests.  [calcMargins]
    tests nothing: it computes both margins from whatever it is
    given. *)
Theorem bounds_checked_at_prompt which :
  (∀ v rest,
     (PAPER_DIMS which <? v)%float = true
     ∨ (v <=? 0)%float = true
     ∨ (PAPER_DIMS which - v <? 1.0)%float = true →
     ∃ r, r ≠ NotANumber
          ∧ getPaperSize which (Some v :: rest)
            = (r :: (getPaperSize which rest).1, (getPaperSize which rest).2))
  ∧ (∀ answers out ps rest,
       getPaperSize which answers = (out, Some (ps, rest)) →
       (PAPER_DIMS which <? ps)%float = false
       ∧ (ps <=? 0)%float = false
       ∧ (PAPER_DIMS which - ps <? 1.0)%float = false)
  ∧ (∀ p, calcMargins p
          = ((PAPER_DIMS X - xdim p) / 2, (PAPER_DIMS Y - ydim p) / 2)%float).
Proof.
  split; [|split; [|done]].
  - intros v rest Hv. simpl.
    destruct (PAPER_DIMS which <? v)%float eqn:E1;
      [by exists (LargerThanPaper which)|].
    destruct (v <=? 0)%float eqn:E2; [by exists NotPositive|].
    destruct (PAPER_DIMS which - v <? 1.0)%float eqn:E3;
      [by exists MarginTooSmall|].
    by destruct Hv as [?|[?|?]].
  - induction answers as [|[a|] answers IH]; intros out ps rest; simpl; [done| |].
    + destruct (PAPER_DIMS which <? a)%float eqn:E1.
      { destruct (getPaperSize which answers) as [o r] eqn:Hg. simpl.
        intros [= <- ->]. by eapply IH. }
      destruct (a <=? 0)%float eqn:E2.
      { destruct (getPaperSize which answers) as [o r] eqn:Hg. simpl.
        intros [= <- ->]. by eapply IH. }
      destruct (PAPER_DIMS which - a <? 1.0)%float eqn:E3.
      { destruct (getPaperSize which answers) as [o r] eqn:Hg. simpl.
        intros [= <- ->]. by eapply IH. }
      by intros [= <- <- <-].
    + destruct (getPaperSize which answers) as [o r] eqn:Hg. simpl.
      intros [= <- ->]. by eapply IH.
Qed.

Lemma bounds_checked_at_prompt_witness :
  ∃ r, r ≠ NotANumber
       ∧ getPaperSize X [Some 8.0%float; Some 6.0%float]
         = ([r], Some (6.0%float, [])).
Proof.
  apply (proj1 (bounds_checked_at_prompt X) 8.0%float [Some 6.0%float]).
  right. right. reflexivity.
Defined.

(** C9 as stated fails: called with the width 8.0, which leaves a
    margin of 0.5 only, [calcMargins] returns the margins. *)
Lemma calcMargins_out_of_bounds :
  in_bounds X 8.0%float = false
  ∧ calcMargins (Params "" 8.0%float 5.0%float "") = (0.25, 3.0)%float
  ∧ calcColumns 8.0%float = Some 5%Z.
Proof. repeat split; reflexivity. Qed.

Example calcColumns_values :
  calcColumns 6.0%float = Some 4%Z ∧ calcColumns 8.0%float = Some 5%Z
  ∧ calcColumns 1.0%float = Some 0%Z ∧ calcColumns (-4.0)%float = Some (-2)%Z.
Proof. repeat split; reflexivity. Qed.

(** The prompt lets [nan] through: none of its three tests is true. *)
Example getPaperSize_nan :
  getPaperSize X [Some nan] = ([], Some (nan, [])).
Proof. reflexivity. Qed.

(** * Further properties of the code *)

(** ** The loop as a comprehension *)

Lemma loop_body_view st line :
  line ≠ "" →
  loop_body st line
  = Some (State (data st ++ option_list (line_entry line))
                (errors st ++ option_list (line_error line))
                (line_sortDict (sortDict st) line)).
Proof.
  intros Hne. unfold line_entry, line_error, line_sortDict, line_record,
    explicit_fields, skipped.
  destruct (is_comment line) eqn:Hc.
  { rewrite loop_body_skip by eauto. simpl. rewrite !app_nil_r. by destruct st. }
  destruct (String.eqb_spec line nl) as [Hnl|Hnl].
  { rewrite loop_body_skip by eauto. simpl. rewrite !app_nil_r. by destruct st. }
  rewrite loop_body_cases by done. simpl.
  destruct (split TAB line) as [|f0 [|f1 [|f2 [|f3 fs]]]]; simpl;
    rewrite ?app_nil_r; try done.
  destruct (String.eqb (strip f2) ""); simpl; by rewrite ?app_nil_r.
Qed.

Lemma loop_view st ls st' :
  loop st ls = Some st' →
  data st' = (data st ++ omap line_entry ls)%list
  ∧ errors st' = (errors st ++ omap line_error ls)%list
  ∧ sortDict st' = foldl line_sortDict (sortDict st) ls.
Proof.
  revert st. induction ls as [|l ls IH]; intros st Hl; simpl in Hl.
  { injection Hl as <-. simpl. by rewrite !app_nil_r. }
  destruct (decide (l = "")) as [->|Hne]; [done|].
  rewrite (loop_body_view st l Hne) in Hl. simpl in Hl.
  destruct (IH _ Hl) as (Hd & He & Hm). simpl in *.
  rewrite Hd, He, Hm. repeat split.
  - rewrite <- app_assoc. f_equal. by destruct (line_entry l).
  - rewrite <- app_assoc. f_equal. by destruct (line_error l).
Qed.

Lemma loop_no_empty_line st ls st' : loop st ls = Some st' → "" ∉ ls.
Proof.
  revert st. induction ls as [|l ls IH]; intros st Hl; simpl in Hl.
  { apply not_elem_of_nil. }
  destruct (loop_body st l) as [s|] eqn:Hb; [|done]. simpl in Hl.
  apply not_elem_of_cons. split; [|by eapply IH].
  intros <-. done.
Qed.

Lemma parse_view f st :
  parse f = Some st →
  data st = omap line_entry (readlines f)
  ∧ errors st = omap line_error (readlines f)
  ∧ sortDict st = foldl line_sortDict ∅ (readlines f).
Proof. intros Hp. exact (loop_view _ _ _ Hp). Qed.

(** X1.  After the loop, [data] holds what the lines that became
    entries appended, in the order of the lines, and [errors] holds
    the fields of the other lines that were not skipped, in the order
    of the lines. *)
Theorem parse_in_input_order f st :
  parse f = Some st →
  data st = omap line_entry (readlines f)
  ∧ errors st = omap line_error (readlines f).
Proof.
  intros Hp. destruct (parse_view f st Hp) as (Hd & He & _). by split.
Qed.

Lemma parse_in_input_order_witness :
  let f := "b" +:+ tab +:+ "2" +:+ nl +:+ "# note" +:+ nl +:+ "oops" +:+ nl
           +:+ "a" +:+ tab +:+ "1" +:+ tab +:+ "z" +:+ nl in
  [("b", "2"); ("z", "1")] = omap line_entry (readlines f)
  ∧ [["oops" +:+ nl]] = omap line_error (readlines f).
Proof.
  intros f.
  exact (parse_in_input_order f
           (State [("b", "2"); ("z", "1")] [["oops" +:+ nl]] (<["z" := "a"]> ∅))
           eq_refl).
Defined.

(** A line that is not empty is skipped, or becomes an entry, or goes
    to [errors]: exactly one of the three. *)
Lemma line_three_ways line :
  line ≠ "" →
  (if skipped line then 1 else 0)
  + length (option_list (line_entry line))
  + length (option_list (line_error line)) = 1.
Proof.
  intros Hne. unfold line_entry, line_error, line_record.
  destruct (skipped line); [done|]. simpl.
  destruct (split TAB line) as [|f0 [|f1 [|f2 [|f3 fs]]]]; simpl; try done.
  by destruct (String.eqb (strip f2) "").
Qed.

(** X2.  Every line of the file is accounted for once: the entries,
    the rejected lines and the skipped lines add up to the lines of
    the file. *)
Theorem parse_accounts_for_every_line f st :
  parse f = Some st →
  length (data st) + length (errors st)
  + length (filter (λ l, skipped l = true) (readlines f))
  = length (readlines f).
Proof.
  intros Hp. destruct (parse_view f st Hp) as (-> & -> & _).
  pose proof (readlines_nonempty f) as Hne.
  induction Hne as [|l ls Hl _ IH]; [done|].
  pose proof (line_three_ways l Hl) as H3.
  rewrite filter_cons. simpl.
  destruct (line_entry l), (line_error l), (skipped l);
    simpl in *; try lia; try case_decide; simpl; try done; unfold omap in IH; lia.
Qed.

Lemma parse_accounts_for_every_line_witness :
  let f := "b" +:+ tab +:+ "2" +:+ nl +:+ "# note" +:+ nl +:+ "oops" +:+ nl
           +:+ "a" +:+ tab +:+ "1" +:+ tab +:+ "z" +:+ nl in
  2 + 1 + length (filter (λ l, skipped l = true) (readlines f))
  = length (readlines f).
Proof.
  intros f.
  exact (parse_accounts_for_every_line f
           (State [("b", "2"); ("z", "1")] [["oops" +:+ nl]] (<["z" := "a"]> ∅))
           eq_refl).
Defined.

(** ** The keys of the side table *)

Lemma line_sortDict_kept d line k :
  is_Some (d !! k) → is_Some (line_sortDict d line !! k).
Proof.
  intros Hk. unfold line_sortDict.
  destruct (explicit_fields line) as [[[k' t] p]|]; [|done].
  destruct (decide (k' = k)) as [->|Hne].
  - rewrite lookup_insert_eq. eauto.
  - by rewrite lookup_insert_ne.
Qed.

Lemma foldl_sortDict_kept d ls k :
  is_Some (d !! k) → is_Some (foldl line_sortDict d ls !! k).
Proof.
  revert d. induction ls as [|l ls IH]; intros d Hk; simpl; [done|].
  by apply IH, line_sortDict_kept.
Qed.

Lemma foldl_sortDict_set d ls k :
  (∃ l t p, l ∈ ls ∧ explicit_fields l = Some (k, t, p)) →
  is_Some (foldl line_sortDict d ls !! k).
Proof.
  revert d. induction ls as [|l ls IH]; intros d (l' & t & p & Hin & He).
  { by apply elem_of_nil in Hin. }
  simpl. apply elem_of_cons in Hin as [->|Hin].
  - apply foldl_sortDict_kept. unfold line_sortDict. rewrite He.
    rewrite lookup_insert_eq. eauto.
  - apply IH. eauto.
Qed.

Lemma foldl_sortDict_origin d ls k t :
  foldl line_sortDict d ls !! k = Some t →
  d !! k = Some t ∨ ∃ l p, l ∈ ls ∧ explicit_fields l = Some (k, t, p).
Proof.
  revert d. induction ls as [|l ls IH]; intros d Hk; simpl in Hk; [by left|].
  destruct (IH _ Hk) as [Hd|(l' & p & Hin & He)].
  - unfold line_sortDict in Hd.
    destruct (explicit_fields l) as [[[k' t'] p]|] eqn:He; [|by left].
    destruct (decide (k' = k)) as [->|Hne].
    + rewrite lookup_insert_eq in Hd. injection Hd as ->.
      right. exists l, p. split; [left|done].
    + rewrite lookup_insert_ne in Hd by done. by left.
  - right. exists l', p. split; [by right|done].
Qed.

Lemma parse_sortDict_origin f st k t :
  parse f = Some st → sortDict st !! k = Some t →
  ∃ l p, l ∈ readlines f ∧ explicit_fields l = Some (k, t, p).
Proof.
  intros Hp Hk. destruct (parse_view f st Hp) as (_ & _ & Hm).
  rewrite Hm in Hk. by destruct (foldl_sortDict_origin _ _ _ _ Hk) as [?|?].
Qed.

Lemma parse_sortDict_set f st k :
  parse f = Some st →
  (∃ l t p, l ∈ readlines f ∧ explicit_fields l = Some (k, t, p)) →
  is_Some (sortDict st !! k).
Proof.
  intros Hp Hk. destruct (parse_view f st Hp) as (_ & _ & ->).
  by apply foldl_sortDict_set.
Qed.

(** X3.  The keys of [sortDict] are the sort keys set by the lines of
    the file, no more and no less, and the term stored under a key is
    the display term of one of the lines that set it. *)
Theorem sortDict_keys_from_lines f st :
  parse f = Some st →
  ∀ k,
    (is_Some (sortDict st !! k)
     ↔ ∃ l t p, l ∈ readlines f ∧ explicit_fields l = Some (k, t, p))
    ∧ (∀ t, sortDict st !! k = Some t →
         ∃ l p, l ∈ readlines f ∧ explicit_fields l = Some (k, t, p)).
Proof.
  intros Hp k. split; [split|].
  - intros [t Ht]. destruct (parse_sortDict_origin f st k t Hp Ht) as (l & p & ? & ?).
    eauto.
  - by apply parse_sortDict_set.
  - intros t. by apply parse_sortDict_origin.
Qed.

Lemma sortDict_keys_from_lines_witness :
  let f := "b" +:+ tab +:+ "2" +:+ nl
           +:+ "a" +:+ tab +:+ "1" +:+ tab +:+ "z" +:+ nl in
  (is_Some ((<["z" := "a"]> ∅ : gmap string string) !! "b")
   ↔ ∃ l t p, l ∈ readlines f ∧ explicit_fields l = Some ("b", t, p))
  ∧ (∀ t, (<["z" := "a"]> ∅ : gmap string string) !! "b" = Some t →
       ∃ l p, l ∈ readlines f ∧ explicit_fields l = Some ("b", t, p)).
Proof.
  intros f.
  exact (sortDict_keys_from_lines f
           (State [("b", "2"); ("z", "1")] [] (<["z" := "a"]> ∅))
           eq_refl "b").
Defined.

(** X4.  Comment lines and lone newlines change nothing: the loop
    ends in the same state, or raises alike, when they are taken out
    of the input. *)
Theorem skipped_lines_immaterial st ls :
  loop st (filter (λ l, skipped l = false) ls) = loop st ls.
Proof.
  revert st. induction ls as [|l ls IH]; intros st; [done|].
  rewrite filter_cons. destruct (skipped l) eqn:Hs.
  - rewrite decide_False by done. simpl.
    rewrite loop_body_skip; [apply IH|].
    unfold skipped in Hs. apply orb_true_iff in Hs as [?|Hnl]; [by left|].
    right. by apply String.eqb_eq.
  - rewrite decide_True by done. simpl.
    destruct (loop_body st l); simpl; [apply IH|done].
Qed.

(** X5.  When no line was rejected, or a line is left on [stdin] for
    the prompt of the report, [readContent] returns; it returns one
    pair for each entry the loop kept, and the page references it
    returns are those of the kept entries, each as often as it was
    read. *)
Theorem readContent_keeps_page_refs f st stdin :
  parse f = Some st →
  errors st = [] ∨ stdin ≠ [] →
  ∃ pr out rest,
    readContent f stdin = (pr, Some (out, rest))
    ∧ length out = length (data st)
    ∧ map snd out ≡ₚ map snd (data st).
Proof.
  intros Hp Hret. unfold readContent. rewrite Hp.
  assert (length (normalize st) = length (data st)
          ∧ map snd (normalize st) ≡ₚ map snd (data st)) as [Hlen Hperm].
  { unfold normalize. rewrite substitute_page_refs. unfold substitute.
    rewrite length_map. by rewrite !sort_entries_perm. }
  destruct (errors st) as [|e es]; [by eexists _, _, _|].
  destruct stdin as [|l rest]; [by destruct Hret|]. by eexists _, _, _.
Qed.

Lemma readContent_keeps_page_refs_witness :
  let f := "b" +:+ tab +:+ "2" +:+ nl +:+ "oops" +:+ nl
           +:+ "a" +:+ tab +:+ "1" +:+ tab +:+ "z" +:+ nl in
  ∃ pr out rest,
    readContent f ["y"] = (pr, Some (out, rest))
    ∧ length out = 2
    ∧ map snd out ≡ₚ ["2"; "1"].
Proof.
  intros f.
  apply (readContent_keeps_page_refs f
           (State [("b", "2"); ("z", "1")] [["oops" +:+ nl]] (<["z" := "a"]> ∅))
           ["y"] eq_refl).
  right. discriminate.
Defined.

(** ** Where the substitution pass is right *)

Lemma explicit_fields_record line k t p :
  explicit_fields line = Some (k, t, p) → line_record line = Some (k, t, p).
Proof.
  unfold explicit_fields, line_record, skipped.
  destruct (is_comment line || String.eqb line nl); [done|].
  destruct (split TAB line) as [|f0 [|f1 [|f2 [|f3 fs]]]]; try done.
  by destruct (String.eqb (strip f2) "").
Qed.

Lemma line_record_explicit_or_normal line k t p :
  line_record line = Some (k, t, p) →
  explicit_fields line = Some (k, t, p)
  ∨ (explicit_fields line = None ∧ t = k).
Proof.
  unfold explicit_fields, line_record, skipped.
  destruct (is_comment line || String.eqb line nl); [done|].
  destruct (split TAB line) as [|f0 [|f1 [|f2 [|f3 fs]]]]; try done.
  - intros [= <- <- <-]. by right.
  - destruct (String.eqb (strip f2) ""); intros [= <- <- <-]; [by right|by left].
Qed.

Lemma line_entry_record line k p :
  line_entry line = Some (k, p) ↔ ∃ t, line_record line = Some (k, t, p).
Proof.
  unfold line_entry. destruct (line_record line) as [[[k' t'] p']|]; simpl.
  - split; [intros [= <- <-]; eauto|]. by intros (t & [= <- <- <-]).
  - split; [done|]. by intros (t & ?).
Qed.

(** X6.  When no two lines of the file give the same sort key to
    different display terms (a normal entry sorts on its display
    term), the substitution pass is right for every entry: each line
    that became an entry is shown with its own display term, at the
    place of its sort key, and nothing else is shown. *)
Theorem own_term_without_collision f st :
  parse f = Some st →
  (∀ l1 l2 k t1 p1 t2 p2,
     l1 ∈ readlines f → l2 ∈ readlines f →
     line_record l1 = Some (k, t1, p1) → line_record l2 = Some (k, t2, p2) →
     t1 = t2) →
  (∀ l k t p, l ∈ readlines f → line_record l = Some (k, t, p) →
     ∃ i, sort_entries (data st) !! i = Some (k, p)
          ∧ normalize st !! i = Some (t, p))
  ∧ (∀ i k p, sort_entries (data st) !! i = Some (k, p) →
       ∃ l t, l ∈ readlines f ∧ line_record l = Some (k, t, p)
              ∧ normalize st !! i = Some (t, p)).
Proof.
  intros Hp Hcoll.
  destruct (parse_view f st Hp) as (Hd & _ & _).
  assert (∀ l k t p i, l ∈ readlines f → line_record l = Some (k, t, p) →
            sort_entries (data st) !! i = Some (k, p) →
            normalize st !! i = Some (t, p)) as Hshow.
  { intros l k t p i Hin Hrec Hi. unfold normalize.
    rewrite substitute_lookup, Hi. simpl. f_equal. unfold resolve. simpl.
    destruct (sortDict st !! k) as [t'|] eqn:Hk.
    - destruct (parse_sortDict_origin f st k t' Hp Hk)
        as (l' & p' & Hin' & He').
      apply explicit_fields_record in He'.
      by rewrite (Hcoll l l' k t p t' p' Hin Hin' Hrec He').
    - destruct (line_record_explicit_or_normal _ _ _ _ Hrec) as [He|[_ ->]]; [|done].
      assert (is_Some (sortDict st !! k)) as [? Hs]; [|congruence].
      apply (parse_sortDict_set f st k Hp). eauto. }
  split.
  - intros l k t p Hin Hrec.
    assert ((k, p) ∈ sort_entries (data st)) as Hkp.
    { rewrite sort_entries_perm, Hd. apply list_elem_of_omap.
      exists l. split; [done|]. apply line_entry_record. eauto. }
    apply list_elem_of_lookup in Hkp as [i Hi]. exists i. split; [done|].
    by apply (Hshow l k t p i).
  - intros i k p Hi.
    assert ((k, p) ∈ data st) as Hkp.
    { rewrite <- sort_entries_perm. by eapply list_elem_of_lookup_2. }
    rewrite Hd in Hkp. apply list_elem_of_omap in Hkp as (l & Hin & He).
    apply line_entry_record in He as [t Hrec].
    exists l, t. repeat split; [done..|]. by apply (Hshow l k t p i).
Qed.

Lemma own_term_without_collision_witness :
  let f := "Dr. Smith" +:+ tab +:+ "3" +:+ tab +:+ "Smith" +:+ nl
           +:+ "apple" +:+ tab +:+ "1" +:+ nl in
  let st := State [("Smith", "3"); ("apple", "1")] []
                  (<["Smith" := "Dr. Smith"]> ∅) in
  (∀ l k t p, l ∈ readlines f → line_record l = Some (k, t, p) →
     ∃ i, sort_entries (data st) !! i = Some (k, p)
          ∧ normalize st !! i = Some (t, p))
  ∧ (∀ i k p, sort_entries (data st) !! i = Some (k, p) →
       ∃ l t, l ∈ readlines f ∧ line_record l = Some (k, t, p)
              ∧ normalize st !! i = Some (t, p)).
Proof.
  intros f st. apply (own_term_without_collision f st eq_refl).
  intros l1 l2 k t1 p1 t2 p2 H1 H2.
  vm_compute in H1. vm_compute in H2.
  apply elem_of_cons in H1 as [->|H1]; [|apply elem_of_cons in H1 as [->|H1]];
    [| |by apply elem_of_nil in H1];
    (apply elem_of_cons in H2 as [->|H2]; [|apply elem_of_cons in H2 as [->|H2]];
      [| |by apply elem_of_nil in H2]);
    vm_compute; congruence.
Defined.

(** ** The sort *)

(** X7.  Sorting a list that is in order already gives it back, so
    sorting twice is sorting once. *)
Theorem sort_entries_idempotent :
  (∀ l, StronglySorted key_le l → sort_entries l = l)
  ∧ (∀ l, sort_entries (sort_entries l) = sort_entries l).
Proof.
  assert (∀ l, StronglySorted key_le l → sort_entries l = l) as Hid.
  { intros l Hs. symmetry. by apply sort_entries_unique. }
  split; [done|]. intros l. apply Hid, sort_entries_sorted.
Qed.

Lemma filter_key_at_most_one k (l : list entry) :
  NoDup (map key l) → (length (filter (λ e, key e = k) l) ≤ 1)%nat.
Proof.
  induction l as [|x l IH]; simpl; [lia|].
  intros Hnd. apply NoDup_cons in Hnd as [Hx Hnd].
  rewrite filter_cons. case_decide as Hk; [|by apply IH].
  assert (filter (λ e, key e = k) l = []) as ->; [|simpl; lia].
  destruct (filter (λ e, key e = k) l) as [|y r] eqn:Hf; [done|].
  exfalso. apply Hx.
  assert (y ∈ filter (λ e, key e = k) l) as Hy by (rewrite Hf; left).
  apply list_elem_of_filter in Hy as [Hky Hy].
  rewrite Hk, <- Hky. apply list_elem_of_In, in_map, list_elem_of_In, Hy.
Qed.

(** X8.  When the lowercased first fields are pairwise different, the
    order of the input is immaterial: every rearrangement of the
    entries is sorted to the same list. *)
Theorem sort_entries_order_free l l' :
  NoDup (map key l) → l ≡ₚ l' → sort_entries l = sort_entries l'.
Proof.
  intros Hnd Hperm. apply sort_entries_unique; [apply sort_entries_sorted|].
  intros k. rewrite sort_entries_filter.
  pose proof (filter_key_at_most_one k l Hnd) as Hlen.
  assert (filter (λ e, key e = k) l ≡ₚ filter (λ e, key e = k) l') as Hf
    by (by rewrite Hperm).
  destruct (filter (λ e, key e = k) l) as [|x [|y r]]; simpl in Hlen; [| |lia].
  - by apply Permutation_nil_l in Hf.
  - by apply Permutation_singleton_l in Hf.
Qed.

Lemma sort_entries_order_free_witness :
  sort_entries [("b", "2"); ("C", "3"); ("a", "1")]
  = sort_entries [("a", "1"); ("b", "2"); ("C", "3")].
Proof.
  apply sort_entries_order_free.
  - vm_compute. repeat constructor; rewrite ?elem_of_cons; intros H;
      repeat (destruct H as [H|H]; [discriminate|]); by apply elem_of_nil in H.
  - change ([("b", "2"); ("C", "3"); ("a", "1")]
            ≡ₚ [("a", "1")] ++ [("b", "2"); ("C", "3")])%list.
    by rewrite Permutation_app_comm.
Defined.

(** ** The newline that ends a line *)

Lemma rstrip_app_nl s : rstrip (s +:+ nl) = rstrip s.
Proof.
  induction s as [|c s IH]; [done|].
  rewrite append_cons. simpl. by rewrite IH.
Qed.

Lemma lstrip_app_nl s :
  (lstrip (s +:+ nl) = "" ∧ lstrip s = "")
  ∨ lstrip (s +:+ nl) = lstrip s +:+ nl.
Proof.
  induction s as [|c s IH]; [by left|].
  rewrite append_cons. simpl. destruct (isspace c); [done|by right].
Qed.

Lemma strip_app_nl s : strip (s +:+ nl) = strip s.
Proof.
  unfold strip. destruct (lstrip_app_nl s) as [[-> ->] | ->]; [done|].
  apply rstrip_app_nl.
Qed.

(** Appending a newline to a line appends it to the last field. *)
Lemma split_app_nl line :
  ∃ fs x, split TAB line = (fs ++ [x])%list
          ∧ split TAB (line +:+ nl) = (fs ++ [x +:+ nl])%list.
Proof.
  induction line as [|c line [fs [x [Hs Hs2]]]].
  { by exists [], "". }
  rewrite append_cons. simpl. destruct (Ascii.eqb c TAB).
  - exists ("" :: fs), x. by rewrite Hs, Hs2.
  - rewrite Hs, Hs2. destruct fs as [|f fs]; simpl.
    + by exists [], (String c x).
    + by exists (String c f :: fs), x.
Qed.

Lemma line_views_app_nl line :
  line ≠ "" → line ≠ nl →
  line_record (line +:+ nl) = line_record line
  ∧ explicit_fields (line +:+ nl) = explicit_fields line.
Proof.
  intros Hne Hnl.
  assert (is_comment (line +:+ nl) = is_comment line) as Hc.
  { by destruct line. }
  assert (String.eqb (line +:+ nl) nl = false) as Hnl1.
  { apply String.eqb_neq. by destruct line as [|c [|c' line]]. }
  assert (String.eqb line nl = false) as Hnl2 by (by apply String.eqb_neq).
  unfold line_record, explicit_fields, skipped. rewrite Hc, Hnl1, Hnl2.
  destruct (is_comment line); [done|]. simpl.
  destruct (split_app_nl line) as (fs & x & -> & ->).
  destruct fs as [|f0 [|f1 [|f2 fs]]]; simpl; rewrite ?strip_app_nl; try done.
  by destruct fs.
Qed.

(** The lines of a file without a final newline, and of the same file
    with one. *)
Lemma readlines_final_nl g c :
  c ≠ NL →
  ∃ ls last, last ≠ "" ∧ last ≠ nl
    ∧ readlines (g +:+ String c "") = (ls ++ [last])%list
    ∧ readlines (g +:+ String c "" +:+ nl) = (ls ++ [last +:+ nl])%list.
Proof.
  intros Hc. apply Ascii.eqb_neq in Hc as Hc'.
  induction g as [|c' g [ls [last [Hne [Hnl [Hr Hr2]]]]]].
  { exists [], (String c ""). simpl. rewrite Hc'.
    repeat split; try done. intros [= ->]. done. }
  rewrite (append_cons c' g (String c "")),
    (append_cons c' g (String c "" +:+ nl)).
  simpl. rewrite Hr, Hr2.
  destruct (Ascii.eqb c' NL).
  - by exists (nl :: ls), last.
  - destruct ls as [|l ls]; simpl.
    + exists [], (String c' last). repeat split; try done.
      intros [= -> ->]. done.
    + by exists (String c' l :: ls), last.
Qed.

Lemma foldl_sortDict_ext d ls ls' :
  Forall2 (λ l l', explicit_fields l = explicit_fields l') ls ls' →
  foldl line_sortDict d ls = foldl line_sortDict d ls'.
Proof.
  intros H. revert d. induction H as [|l l' ls ls' Hl _ IH]; intros d; [done|].
  simpl. unfold line_sortDict at 2 4. rewrite Hl. apply IH.
Qed.

Lemma line_error_app_nl line :
  line ≠ "" → line ≠ nl →
  line_error (line +:+ nl) = None ↔ line_error line = None.
Proof.
  intros Hne Hnl.
  assert (is_comment (line +:+ nl) = is_comment line) as Hc.
  { by destruct line. }
  assert (String.eqb (line +:+ nl) nl = false) as Hnl1.
  { apply String.eqb_neq. by destruct line as [|c [|c' line]]. }
  assert (String.eqb line nl = false) as Hnl2 by (by apply String.eqb_neq).
  unfold line_error, skipped. rewrite Hc, Hnl1, Hnl2.
  destruct (is_comment line); [done|]. simpl.
  destruct (split_app_nl line) as (fs & x & -> & ->).
  rewrite !length_app. simpl.
  by destruct (_ || _).
Qed.

(** X9.  A newline after the last line is immaterial: a file that
    does not end in a newline is read as the same file with the
    newline added, to the same list or to the same exception, with
    the same lines of [stdin] left.  (The report can differ in that
    newline, in the fields of a rejected last line.) *)
Theorem readContent_final_newline g c stdin :
  c ≠ NL →
  (readContent (g +:+ String c "" +:+ nl) stdin).2
  = (readContent (g +:+ String c "") stdin).2.
Proof.
  intros Hc.
  destruct (readlines_final_nl g c Hc) as (ls & last & Hne & Hnl & Hr & Hr').
  destruct (line_views_app_nl last Hne Hnl) as [Hrec Hexp].
  pose proof (line_error_app_nl last Hne Hnl) as Herr.
  destruct (readContent_parse (g +:+ String c "") stdin) as (st & Hp & ->).
  destruct (readContent_parse (g +:+ String c "" +:+ nl) stdin)
    as (st' & Hp' & ->).
  destruct (loop_view _ _ _ Hp) as (Hd & He & Hm).
  destruct (loop_view _ _ _ Hp') as (Hd' & He' & Hm').
  rewrite Hr in Hd, He, Hm. rewrite Hr' in Hd', He', Hm'.
  assert (normalize st' = normalize st) as ->.
  { unfold normalize. rewrite Hd, Hd', Hm, Hm'. simpl.
    rewrite !omap_app, !foldl_app. simpl.
    unfold line_entry at 2 4. unfold line_sortDict at 1 3.
    by rewrite Hrec, Hexp. }
  assert (errors st' = [] ↔ errors st = []) as Hempty.
  { rewrite He, He'. simpl. rewrite !omap_app. simpl.
    destruct (omap line_error ls); simpl; [|done].
    destruct (line_error (last +:+ nl)), (line_error last); simpl;
      try done; destruct Herr as [H1 H2]; try (by discriminate H1);
      by discriminate H2. }
  destruct (errors st') as [|e' es'], (errors st) as [|e es]; try done.
  - by destruct Hempty as [H _]; discriminate H.
  - by destruct Hempty as [_ H]; discriminate H.
Qed.

Lemma readContent_final_newline_witness :
  (readContent ("b" +:+ tab +:+ "2" +:+ nl +:+ "a" +:+ tab +:+ "1" +:+ nl) []).2
  = (readContent ("b" +:+ tab +:+ "2" +:+ nl +:+ "a" +:+ tab +:+ "1") []).2.
Proof.
  apply (readContent_final_newline
           ("b" +:+ tab +:+ "2" +:+ nl +:+ "a" +:+ tab) "1"%char []).
  discriminate.
Defined.

(** ** No tab and no newline in what is kept *)

Lemma occurs_app c s t : occurs c (s +:+ t) = occurs c s || occurs c t.
Proof.
  induction s as [|c' s IH]; [done|].
  rewrite append_cons. simpl. by rewrite IH, orb_assoc.
Qed.

Lemma occurs_lstrip c s : occurs c s = false → occurs c (lstrip s) = false.
Proof.
  induction s as [|c' s IH]; simpl; [done|].
  intros H. apply orb_false_iff in H as [H1 H2].
  destruct (isspace c'); [by apply IH|]. simpl. by rewrite H1, H2.
Qed.

Lemma occurs_rstrip c s : occurs c s = false → occurs c (rstrip s) = false.
Proof.
  induction s as [|c' s IH]; simpl; [done|].
  intros H. apply orb_false_iff in H as [H1 H2]. specialize (IH H2).
  destruct (rstrip s) as [|c'' r].
  - destruct (isspace c'); simpl; [done|]. by rewrite H1.
  - simpl in *. by rewrite H1, IH.
Qed.

Lemma occurs_strip c s : occurs c s = false → occurs c (strip s) = false.
Proof. intros H. by apply occurs_rstrip, occurs_lstrip. Qed.

Lemma nl_at_end_strip s : nl_at_end s → occurs NL (strip s) = false.
Proof.
  intros (b & Hb & [->| ->]); [|rewrite strip_app_nl]; by apply occurs_strip.
Qed.

Lemma readlines_nl_at_end f : Forall nl_at_end (readlines f).
Proof.
  induction f as [|c f IH]; simpl; [constructor|].
  destruct (Ascii.eqb_spec c NL) as [->|Hc].
  { constructor; [|done]. exists "". split; [done|by right]. }
  apply Ascii.eqb_neq in Hc.
  destruct (readlines f) as [|l ls].
  { repeat constructor. exists (String c ""). simpl. rewrite Hc. by split; [|left]. }
  inversion_clear IH as [|? ? (b & Hb & Hl) Hls]. constructor; [|done].
  exists (String c b). simpl. rewrite Hc, Hb. split; [done|].
  destruct Hl as [->| ->]; [by left|by right].
Qed.

Lemma split_no_sep sep s : Forall (λ x, occurs sep x = false) (split sep s).
Proof.
  induction s as [|c s IH]; simpl; [by repeat constructor|].
  destruct (Ascii.eqb c sep) eqn:Hc; [by constructor|].
  destruct (split sep s) as [|x fs]; simpl.
  { repeat constructor. simpl. by rewrite Hc. }
  inversion_clear IH. constructor; [|done]. simpl. by rewrite Hc.
Qed.

Lemma split_nl_at_end s : nl_at_end s → Forall nl_at_end (split TAB s).
Proof.
  assert (∀ b, occurs NL b = false →
            Forall nl_at_end (split TAB b)
            ∧ Forall nl_at_end (split TAB (b +:+ nl))) as H.
  { induction b as [|c b IH]; intros Hb.
    { split; repeat constructor; exists ""; split; try done; [by left|by right]. }
    simpl in Hb. apply orb_false_iff in Hb as [Hc Hb].
    destruct (IH Hb) as [IH1 IH2]. rewrite append_cons. simpl.
    assert (∀ fs, Forall nl_at_end fs →
              Forall nl_at_end
                (if Ascii.eqb c TAB then "" :: fs
                 else match fs with
                      | f :: fs' => String c f :: fs'
                      | [] => [String c ""]
                      end)) as Hstep.
    { intros fs Hfs. destruct (Ascii.eqb c TAB).
      - constructor; [|done]. exists "". split; [done|by left].
      - destruct Hfs as [|f fs' (b' & Hb' & Hf) Hfs'].
        + repeat constructor. exists (String c ""). simpl. rewrite Hc.
          split; [done|by left].
        + constructor; [|done]. exists (String c b'). simpl. rewrite Hc, Hb'.
          split; [done|]. destruct Hf as [->| ->]; [by left|by right]. }
    split; by apply Hstep. }
  intros (b & Hb & [->| ->]); by apply H.
Qed.

Lemma field_strip_plain line x :
  nl_at_end line → x ∈ split TAB line → plain (strip x).
Proof.
  intros Hl Hx. split.
  - apply occurs_strip.
    pose proof (split_no_sep TAB line) as H. rewrite Forall_forall in H. by apply H.
  - apply nl_at_end_strip.
    pose proof (split_nl_at_end line Hl) as H. rewrite Forall_forall in H. by apply H.
Qed.

Lemma line_record_plain line k t p :
  nl_at_end line → line_record line = Some (k, t, p) →
  plain k ∧ plain t ∧ plain p.
Proof.
  intros Hl. unfold line_record. destruct (skipped line); [done|].
  pose proof (field_strip_plain line) as Hf.
  destruct (split TAB line) as [|f0 [|f1 [|f2 [|f3 fs]]]]; try done.
  - intros [= <- <- <-]. repeat split; apply Hf; try done; set_solver.
  - destruct (String.eqb (strip f2) ""); intros [= <- <- <-];
      repeat split; apply Hf; try done; set_solver.
Qed.

Lemma formatIndex_cons i l : formatIndex (i :: l) = item i +:+ formatIndex l.
Proof.
  unfold formatIndex. simpl. change ("" +:+ item i) with (item i).
  apply formatIndex_from_app.
Qed.

(** X10.  Whatever the file, no display term and no page reference
    that [readContent] returns holds a tab or a newline, and the
    string [formatIndex] makes of them holds no newline: the index
    items come on one line. *)
Theorem readContent_plain_fields f stdin pr out rest :
  readContent f stdin = (pr, Some (out, rest)) →
  (∀ e : entry, e ∈ out → plain e.1 ∧ plain e.2)
  ∧ occurs NL (formatIndex out) = false.
Proof.
  intros Hret. destruct (readContent_returned _ _ _ _ _ Hret) as (st & Hp & ->).
  pose proof (readlines_nl_at_end f) as Hlines. rewrite Forall_forall in Hlines.
  destruct (parse_view f st Hp) as (Hd & _ & _).
  assert (∀ e : entry, e ∈ normalize st → plain e.1 ∧ plain e.2) as Hplain.
  { intros e He. unfold normalize, substitute in He.
    apply list_elem_of_In, in_map_iff in He as ([k p] & <- & He).
    apply list_elem_of_In in He. rewrite sort_entries_perm, Hd in He.
    apply list_elem_of_omap in He as (l & Hin & He).
    apply line_entry_record in He as [t Hrec].
    destruct (line_record_plain l k t p (Hlines l Hin) Hrec) as (Hk & _ & Hp').
    unfold resolve. simpl.
    destruct (sortDict st !! k) as [t'|] eqn:Hk'; [|done]. simpl.
    split; [|done].
    destruct (parse_sortDict_origin f st k t' Hp Hk')
      as (l' & p' & Hin' & He').
    apply explicit_fields_record in He'.
    by destruct (line_record_plain l' k t' p' (Hlines l' Hin') He') as (_ & ? & _). }
  split; [done|]. clear Hret.
  induction (normalize st) as [|e l IH]; [done|].
  rewrite formatIndex_cons. unfold item. rewrite !occurs_app.
  destruct (Hplain e) as [[_ H1] [_ H2]]; [left|].
  rewrite H1, H2. simpl. apply IH. intros e' He'. apply Hplain. by right.
Qed.

Lemma readContent_plain_fields_witness :
  (∀ e : entry, e ∈ [("Dr. Smith", "3")] → plain e.1 ∧ plain e.2)
  ∧ occurs NL (formatIndex [("Dr. Smith", "3")]) = false.
Proof.
  exact (readContent_plain_fields
           (" Dr. Smith " +:+ tab +:+ "3" +:+ tab +:+ " Smith" +:+ nl)
           [] [] [("Dr. Smith", "3")] [] eq_refl).
Defined.

(** ** The prompt for a dimension *)

Lemma getPaperSize_turned_down which a rest :
  turned_down which a = true →
  (getPaperSize which (a :: rest)).2 = (getPaperSize which rest).2
  ∧ length (getPaperSize which (a :: rest)).1
    = S (length (getPaperSize which rest).1).
Proof.
  destruct a as [ps|]; simpl; [|done]. unfold acceptable.
  destruct (PAPER_DIMS which <? ps)%float; [done|].
  destruct (ps <=? 0)%float; [done|].
  by destruct (PAPER_DIMS which - ps <? 1.0)%float.
Qed.

Lemma getPaperSize_acceptable which ps rest :
  acceptable which ps = true →
  getPaperSize which (Some ps :: rest) = ([], Some (ps, rest)).
Proof.
  simpl. unfold acceptable.
  destruct (PAPER_DIMS which <? ps)%float; [done|].
  destruct (ps <=? 0)%float; [done|].
  by destruct (PAPER_DIMS which - ps <? 1.0)%float.
Qed.

(** X11.  [getPaperSize] prints one report for each answer it turns
    down and returns the first answer that passes the three tests,
    leaving the answers after it unread; when every answer is turned
    down it runs out of input. *)
Theorem getPaperSize_first_acceptable which pre :
  Forall (λ a, turned_down which a = true) pre →
  length (getPaperSize which pre).1 = length pre
  ∧ (getPaperSize which pre).2 = None
  ∧ (∀ ps rest, acceptable which ps = true →
       getPaperSize which (pre ++ Some ps :: rest)
       = ((getPaperSize which pre).1, Some (ps, rest))).
Proof.
  induction 1 as [|a pre Ha _ (IH1 & IH2 & IH3)].
  { repeat split. intros ps rest Hps. by apply getPaperSize_acceptable. }
  destruct (getPaperSize_turned_down which a pre Ha) as [H2 H1].
  repeat split.
  - rewrite H1, IH1. done.
  - by rewrite H2.
  - intros ps rest Hps. specialize (IH3 ps rest Hps).
    destruct a as [v|]; simpl in *.
    + unfold acceptable in Ha.
      destruct (PAPER_DIMS which <? v)%float; [by rewrite IH3|].
      destruct (v <=? 0)%float; [by rewrite IH3|].
      destruct (PAPER_DIMS which - v <? 1.0)%float; [by rewrite IH3|done].
    + by rewrite IH3.
Qed.

Lemma getPaperSize_first_acceptable_witness :
  length (getPaperSize X [None; Some 9%float; Some 0%float; Some 8%float]).1 = 4
  ∧ (getPaperSize X [None; Some 9%float; Some 0%float; Some 8%float]).2 = None
  ∧ (∀ ps rest, acceptable X ps = true →
       getPaperSize X ([None; Some 9%float; Some 0%float; Some 8%float]
                       ++ Some ps :: rest)
       = ((getPaperSize X [None; Some 9%float; Some 0%float; Some 8%float]).1,
          Some (ps, rest))).
Proof.
  apply (getPaperSize_first_acceptable X
           [None; Some 9%float; Some 0%float; Some 8%float]).
  repeat constructor.
Defined.

(** X12.  A dimension [getPaperSize] returns is a finite number above
    zero, or [nan]: an infinity, a zero and a number below zero are
    turned down, [nan] is not. *)
Theorem getPaperSize_returns_positive which answers out ps rest :
  getPaperSize which answers = (out, Some (ps, rest)) →
  Prim2SF ps = S754_nan ∨ ∃ m e, Prim2SF ps = S754_finite false m e.
Proof.
  revert out. induction answers as [|[v|] answers IH]; intros out; simpl; [done| |].
  - destruct (PAPER_DIMS which <? v)%float eqn:E1.
    { destruct (getPaperSize which answers) as [o r]. simpl.
      intros [= <- ->]. by eapply IH. }
    destruct (v <=? 0)%float eqn:E2.
    { destruct (getPaperSize which answers) as [o r]. simpl.
      intros [= <- ->]. by eapply IH. }
    destruct (PAPER_DIMS which - v <? 1.0)%float eqn:E3.
    { destruct (getPaperSize which answers) as [o r]. simpl.
      intros [= <- ->]. by eapply IH. }
    intros [= <- <- <-].
    rewrite ltb_spec in E1. rewrite leb_spec in E2.
    destruct (Prim2SF v) as [s|[|]| |[|] m e]; eauto; exfalso.
    + destruct s; vm_compute in E2; congruence.
    + vm_compute in E2. congruence.
    + destruct which; vm_compute in E1; congruence.
    + vm_compute in E2. congruence.
  - destruct (getPaperSize which answers) as [o r]. simpl.
    intros [= <- ->]. by eapply IH.
Qed.

Lemma getPaperSize_returns_positive_witness :
  Prim2SF 6%float = S754_nan ∨ ∃ m e, Prim2SF 6%float = S754_finite false m e.
Proof.
  exact (getPaperSize_returns_positive X [Some 9%float; Some 6%float]
           [LargerThanPaper X] 6%float [] eq_refl).
Defined.

(** ** The length of the index fragment *)

Lemma length_append s t :
  String.length (s +:+ t) = String.length s + String.length t.
Proof.
  induction s as [|c s IH]; [done|]. rewrite append_cons. simpl. by rewrite IH.
Qed.

(** X13.  The fragment is empty for no entry only, and its length is
    that of the fields plus nine characters for each entry (the
    marker, the comma and the blank). *)
Theorem formatIndex_length l :
  String.length (formatIndex l)
  = sum_list (map (λ e : entry, 9 + String.length e.1 + String.length e.2) l)
  ∧ (formatIndex l = "" ↔ l = []).
Proof.
  split.
  - induction l as [|e l IH]; [done|].
    rewrite formatIndex_cons, length_append, IH. unfold item.
    rewrite !length_append. simpl. lia.
  - split; [|by intros ->]. destruct l as [|e l]; [done|].
    rewrite formatIndex_cons. unfold item. rewrite append_assoc.
    intros H. apply (f_equal String.length) in H.
    rewrite length_append in H. simpl in H. lia.
Qed.

(** ** What the sort looks at *)

Lemma insert_entry_key_only (g : entry → entry) x l :
  (∀ e, key (g e) = key e) →
  insert_entry (g x) (map g l) = map g (insert_entry x l).
Proof.
  intros Hg. induction l as [|y l IH]; simpl; [done|].
  rewrite !Hg. destruct (str_le (key x) (key y)); simpl; [done|]. by rewrite IH.
Qed.

(** X14.  The sort looks at the lowercased first field and at nothing
    else: a change of the entries that keeps every lowercased first
    field (another page reference, other letter case) is carried
    through the sort, each entry staying at its place. *)
Theorem sort_entries_key_only (g : entry → entry) l :
  (∀ e, key (g e) = key e) →
  sort_entries (map g l) = map g (sort_entries l).
Proof.
  intros Hg. induction l as [|x l IH]; simpl; [done|].
  by rewrite IH, insert_entry_key_only.
Qed.

Lemma sort_entries_key_only_witness :
  sort_entries (map (λ e : entry, (e.1, "p. " +:+ e.2))
                    [("b", "2"); ("C", "3"); ("a", "1")])
  = map (λ e : entry, (e.1, "p. " +:+ e.2))
        (sort_entries [("b", "2"); ("C", "3"); ("a", "1")]).
Proof.
  apply (sort_entries_key_only (λ e : entry, (e.1, "p. " +:+ e.2))).
  intros e. reflexivity.
Defined.

(** ** The rejected lines *)

Lemma concat_split sep s : String.concat (String sep "") (split sep s) = s.
Proof.
  induction s as [|c s IH]; [done|]. simpl.
  destruct (Ascii.eqb_spec c sep) as [->|Hc].
  - pose proof (split_nonnil sep s) as Hn.
    destruct (split sep s) as [|x fs] eqn:Hs; [done|].
    change (String.concat (String sep "") ("" :: x :: fs))
      with (String sep (String.concat (String sep "") (x :: fs))).
    by rewrite IH.
  - pose proof (split_nonnil sep s) as Hn.
    destruct (split sep s) as [|x [|y fs]] eqn:Hs; [done|..].
    + simpl in *. by rewrite IH.
    + change (String.concat (String sep "") (String c x :: y :: fs))
        with (String c (String.concat (String sep "") (x :: y :: fs))).
      by rewrite IH.
Qed.

(** X15.  A rejected line is kept whole: the fields stored in
    [errors], joined by tabs again, are the line as it was read, its
    newline included. *)
Theorem rejected_line_kept_whole f st fields :
  parse f = Some st → fields ∈ errors st →
  String.concat tab fields ∈ readlines f
  ∧ line_error (String.concat tab fields) = Some fields.
Proof.
  intros Hp Hin. destruct (parse_view f st Hp) as (_ & He & _).
  rewrite He in Hin. apply list_elem_of_omap in Hin as (l & Hl & Herr).
  assert (fields = split TAB l) as ->.
  { unfold line_error in Herr. destruct (skipped l); [done|].
    simpl in Herr. by destruct (_ || _); [|injection Herr]. }
  unfold tab. by rewrite concat_split.
Qed.

Lemma rejected_line_kept_whole_witness :
  let f := "b" +:+ tab +:+ "2" +:+ nl
           +:+ "A" +:+ tab +:+ "B" +:+ tab +:+ "C" +:+ tab +:+ "D" +:+ nl in
  String.concat tab ["A"; "B"; "C"; "D" +:+ nl] ∈ readlines f
  ∧ line_error (String.concat tab ["A"; "B"; "C"; "D" +:+ nl])
    = Some ["A"; "B"; "C"; "D" +:+ nl].
Proof.
  intros f.
  apply (rejected_line_kept_whole f
           (State [("b", "2")] [["A"; "B"; "C"; "D" +:+ nl]] ∅)).
  - reflexivity.
  - left.
Defined.

(** ** The two prompts of [getBasicParams] *)

Lemma getPaperSize_app which pre rest :
  Forall (λ a, turned_down which a = true) pre →
  getPaperSize which (pre ++ rest)
  = (((getPaperSize which pre).1 ++ (getPaperSize which rest).1)%list,
     (getPaperSize which rest).2).
Proof.
  induction 1 as [|a pre Ha _ IH]; simpl.
  { by destruct (getPaperSize which rest). }
  destruct a as [v|]; simpl in *.
  - unfold acceptable in Ha.
    destruct (PAPER_DIMS which <? v)%float; [by rewrite IH|].
    destruct (v <=? 0)%float; [by rewrite IH|].
    destruct (PAPER_DIMS which - v <? 1.0)%float; [by rewrite IH|done].
  - by rewrite IH.
Qed.

Lemma getPaperSize_turned_down_length which pre :
  Forall (λ a, turned_down which a = true) pre →
  length (getPaperSize which pre).1 = length pre.
Proof.
  induction 1 as [|a pre Ha _ IH]; [done|].
  destruct (getPaperSize_turned_down which a pre Ha) as [_ ->]. by rewrite IH.
Qed.

(** X16.  [getBasicParams] asks for the width until an answer passes
    the tests against the paper width, then for the height until an
    answer passes the tests against the paper height: it returns
    these two answers with the title and the file name, prints one
    report for each answer turned down, and reads nothing after the
    height it takes. *)
Theorem getBasicParams_takes_first_acceptable
    fname title preX x preY y rest :
  Forall (λ a, turned_down X a = true) preX → acceptable X x = true →
  Forall (λ a, turned_down Y a = true) preY → acceptable Y y = true →
  ∃ out, getBasicParams fname title
           (preX ++ Some x :: preY ++ Some y :: rest)%list
         = (out, Some (Params title x y fname, rest))
         ∧ length out = length preX + length preY.
Proof.
  intros HpreX Hx HpreY Hy. unfold getBasicParams.
  rewrite (getPaperSize_app X preX _ HpreX).
  rewrite (getPaperSize_acceptable X x _ Hx). simpl.
  rewrite (getPaperSize_app Y preY _ HpreY).
  rewrite (getPaperSize_acceptable Y y _ Hy). simpl.
  eexists. split; [done|].
  rewrite !app_nil_r, length_app.
  by rewrite !getPaperSize_turned_down_length.
Qed.

Lemma getBasicParams_takes_first_acceptable_witness :
  ∃ out, getBasicParams "in.txt" "Index"
           ([Some 9%float] ++ Some 6%float
              :: [None; Some 10.5%float] ++ Some 9%float :: [Some 1%float])%list
         = (out, Some (Params "Index" 6%float 9%float "in.txt", [Some 1%float]))
         ∧ length out = 1 + 2.
Proof.
  apply (getBasicParams_takes_first_acceptable "in.txt" "Index"
           [Some 9%float] 6%float [None; Some 10.5%float] 9%float
           [Some 1%float]).
  - repeat constructor.
  - reflexivity.
  - repeat constructor.
  - reflexivity.
Defined.
